(** * Voxely web client: the live server view, its file explorer and console

    A shallow embedding of the parts of the Next.js front end that operate one
    server: [app/dashboard/server/[name]/page.tsx] (the WebSocket session, the
    message dispatcher, the lifecycle buttons and the file back-end calls),
    [components/server/Files] (the file explorer: tree reconstruction, listing,
    readability policy, clipboard) and [components/server/ConsoleOutput.tsx]
    (the console export).

    Conventions of the embedding.
    - A JavaScript string is a [string]: a sequence of code units, each
      below 256.
    - A JavaScript object used as a dictionary is an association list holding
      its own keys in insertion order (the order [Object.values] follows for
      keys that are not array indices).  [Files] and [Explorer] read such
      an object by its own keys; [PlainObject] adds what [current[part]]
      finds through [Object.prototype] and the order of [Object.values],
      and gives [buildFileTree] and [getCurrentFiles] as the code runs
      them.
    - React state is a record; a handler is a function from the state before
      to the state after.  [setState] is taken to be immediate.  A handler
      that awaits the back-end is given for a call that resolves;
      [handlePaste] takes the [Outcome] of its call, and [handleFileClick]
      is also given in two halves, before and after the [await].
    - What the browser provides and the repository does not implement
      ([toLowerCase], [toUpperCase], [localeCompare]) is an interface,
      [JSRuntime]; [ascii_runtime] is one implementation of it. *)

From Stdlib Require Import List String Ascii ZArith Lia Bool Permutation Sorted.
Import ListNotations.

Set Warnings "-register-all".
Local Open Scope string_scope.
Local Open Scope list_scope.

(** ** The JavaScript built-ins the code calls *)

Class JSRuntime := {
  toLowerCase : string -> string;
  toUpperCase : string -> string;
  (* negative, zero or positive, as String.prototype.localeCompare *)
  localeCompare : string -> string -> Z
}.

(** [localeCompare] orders strings: a total preorder, as any collation is. *)
Record LocaleOrder (R : JSRuntime) : Prop := {
  locale_total : forall a b, (0 < localeCompare a b -> localeCompare b a <= 0)%Z;
  locale_trans : forall a b c,
    (localeCompare a b <= 0 -> localeCompare b c <= 0 -> localeCompare a c <= 0)%Z
}.

Module JS.

(** [s.split(sep)] for a one-character separator: never an empty array. *)
Fixpoint split (sep : ascii) (s : string) : list string :=
  match s with
  | EmptyString => [EmptyString]
  | String c rest =>
      if Ascii.eqb c sep then EmptyString :: split sep rest
      else match split sep rest with
           | [] => [String c EmptyString]
           | h :: t => String c h :: t
           end
  end.

(** [l.join(sep)] *)
Definition join (sep : string) (l : list string) : string := String.concat sep l.

(** A string is truthy when it is not empty: [Boolean(s)], [!!s]. *)
Definition truthy (s : string) : bool := negb (s =? "").

(** [l.filter(Boolean)] on an array of strings. *)
Definition filterBoolean (l : list string) : list string := filter truthy l.

(** [l.pop()] read as a value: the last element ([d] stands for [undefined]). *)
Definition pop (l : list string) (d : string) : string := last l d.

(** [hay.includes(needle)] *)
Fixpoint includes (hay needle : string) : bool :=
  String.prefix needle hay
  || match hay with
     | EmptyString => false
     | String _ rest => includes rest needle
     end.

(** [a || b] on optional strings: [a] when it is defined and not empty. *)
Definition or_else (a b : option string) : option string :=
  match a with
  | Some s => if truthy s then a else b
  | None => b
  end.

(** A value inside a template literal: [undefined] prints as its name. *)
Definition show (o : option string) : string :=
  match o with
  | Some s => s
  | None => "undefined"
  end.

(** [l.sort(cmp)]: the sort is stable; [x] goes before the first element it
    does not follow. *)
Fixpoint insert {A} (cmp : A -> A -> Z) (x : A) (l : list A) : list A :=
  match l with
  | [] => [x]
  | y :: l' => if (cmp x y <=? 0)%Z then x :: y :: l' else y :: insert cmp x l'
  end.

Fixpoint sort {A} (cmp : A -> A -> Z) (l : list A) : list A :=
  match l with
  | [] => []
  | x :: l' => insert cmp x (sort cmp l')
  end.

End JS.

(** The newline character of ["\n"]. *)
Definition nl : ascii := Ascii.ascii_of_nat 10.

(** ** utils/types *)

Inductive FileType := directory | file.

Definition FileType_eqb (a b : FileType) : bool :=
  match a, b with
  | directory, directory | file, file => true
  | _, _ => false
  end.

Record ServerFile := mkFile {
  path : string;
  name : string;
  type : FileType;
  size : option Z;      (* size?: number | null *)
  modified : string
}.

Inductive ChangeKind := added | modified_ | deleted.

Record FileChangeEvent := mkChange {
  event : ChangeKind;
  change_path : string
}.

Record ConsoleMessage := mkConsole {
  msg_type : string;
  timestamp : option string;
  text : option string;
  data : option string
}.

Record Metrics := mkMetrics {
  cpu_usage : string;
  memory_usage : string;
  player_count : string;
  uptime : string
}.

Record ServerDetails := mkDetails {
  server_name : string;
  status : string;
  server_type : string;
  version : string;
  metrics : Metrics;
  port : Z;
  maxPlayers : Z;
  players : list string;
  ip : string * string    (* private, public *)
}.

Inductive SocketMessage :=
| file_init (d : list ServerFile)
| file_update (d : list ServerFile) (changes : list FileChangeEvent)
| error_msg (d : string)
| need_eula
| ping
| console (d : ConsoleMessage)
| status_msg (d : string)
| player_update (d : list string)
| info_msg (d : ServerDetails).

(** ** components/server/Files: the tree *)

Module Files.

(** A node of the tree: the fields of a [ServerFile] and [children], an
    object keyed by segment. *)
Inductive Node := mkNode (info : ServerFile) (children : list (string * Node)).

Definition Tree := list (string * Node).

Definition info (n : Node) : ServerFile := match n with mkNode i _ => i end.
Definition children (n : Node) : Tree := match n with mkNode _ c => c end.

(** [current[part]] for an own key of [current] ([PlainObject.get] adds the
    keys that are inherited) *)
Fixpoint lookup (k : string) (t : Tree) : option Node :=
  match t with
  | [] => None
  | (k', n) :: t' => if k =? k' then Some n else lookup k t'
  end.

(** [current[part] = n]: an existing key keeps its place, a new one goes last. *)
Fixpoint set (k : string) (n : Node) (t : Tree) : Tree :=
  match t with
  | [] => [(k, n)]
  | (k', n') :: t' => if k =? k' then (k, n) :: t' else (k', n') :: set k n t'
  end.

(** [Object.values(current) as ServerFile[]], for keys that are not array
    indices: those are listed in insertion order ([PlainObject.values] is
    the function on every object). *)
Definition values (t : Tree) : list ServerFile := map (fun kv => info (snd kv)) t.

(** [p.split("/").filter(Boolean)] *)
Definition parts (p : string) : list string := JS.filterBoolean (JS.split "/" p).

(** The inner [parts.forEach((part, index) => ...)] of [buildFileTree] for one
    listing entry: [seen] are the segments before [index], [rest] the segments
    from [index] on, [current] the object the walk stands in. *)
Fixpoint walk (f : ServerFile) (seen rest : list string) (current : Tree) : Tree :=
  match rest with
  | [] => current
  | part :: rest' =>
      let here := seen ++ [part] in
      let node :=
        match lookup part current with
        | Some n => n
        | None =>
            mkNode {| name := part;
                      path := JS.join "/" here;
                      type := match rest' with [] => type f | _ => directory end;
                      size := match rest' with [] => size f | _ => None end;
                      modified := modified f |} []
        end in
      set part (mkNode (info node) (walk f here rest' (children node))) current
  end.

(** [buildFileTree] over own keys: the tree of a listing none of whose
    segments is a key that objects inherit.  [PlainObject.buildFileTree] is
    the function as it runs on every listing, and returns this tree on such
    a listing ([buildFileTree_plain]). *)
Definition buildFileTree (files : list ServerFile) : Tree :=
  fold_left (fun tree f => walk f [] (parts (path f)) tree) files [].

(** The node a chain of segments leads to. *)
Fixpoint resolve (q : list string) (t : Tree) : option Node :=
  match q with
  | [] => None
  | k :: r =>
      match lookup k t with
      | None => None
      | Some n => match r with [] => Some n | _ => resolve r (children n) end
      end
  end.

Definition info_at (q : list string) (t : Tree) : option ServerFile :=
  option_map info (resolve q t).

(** [q] is an initial stretch of [ps]. *)
Fixpoint prefixb (q ps : list string) : bool :=
  match q, ps with
  | [], _ => true
  | k :: q', p :: ps' => (k =? p) && prefixb q' ps'
  | _ :: _, [] => false
  end.

(** The walk over the segments [ps] passes through the chain [q]. *)
Definition reaches (q ps : list string) : bool :=
  match q with
  | [] => false
  | _ => prefixb q ps
  end.

(** The object literal of [buildFileTree], for the node at the chain [q] of
    a walk over [ps] that started below [seen]. *)
Definition created (f : ServerFile) (seen q ps : list string) : ServerFile :=
  let leaf := (List.length q =? List.length ps)%nat in
  {| name := last q "";
     path := JS.join "/" (seen ++ q);
     type := if leaf then type f else directory;
     size := if leaf then size f else None;
     modified := modified f |}.

Definition created_by (q : list string) (f : ServerFile) : ServerFile :=
  created f [] q (parts (path f)).

(** The first entry of the listing whose walk passes through [q]. *)
Definition creator (q : list string) (files : list ServerFile) : option ServerFile :=
  find (fun f => reaches q (parts (path f))) files.

(** An object holds a key once, at every level. *)
Inductive wf : Tree -> Prop :=
| wf_nil : wf []
| wf_cons k n t : lookup k t = None -> wf (children n) -> wf t -> wf ((k, n) :: t).

(** The flattened path set: the [path] of every node of the tree. *)
Fixpoint node_paths (n : Node) : list string :=
  match n with
  | mkNode i ch =>
      path i ::
      (fix go (l : Tree) : list string :=
         match l with
         | [] => []
         | (_, c) :: l' => node_paths c ++ go l'
         end) ch
  end.

Fixpoint tree_paths (t : Tree) : list string :=
  match t with
  | [] => []
  | (_, c) :: t' => node_paths c ++ tree_paths t'
  end.

End Files.

(** ** components/server/Files: the explorer *)

Module Explorer.
Import Files.

Inductive ClipAction := copy | cut.

(** [{ action: "copy" | "cut" | null, path: string | null }] *)
Record Clipboard := mkClipboard {
  action : option ClipAction;
  clip_path : option string       (* [path] in the source *)
}.

Record ContextMenu := mkMenu {
  visible : bool;
  menu_x : Z;
  menu_y : Z;
  menu_file : option ServerFile
}.

(** The calls the component makes on the functions it receives as props. *)
Inductive BackendCall :=
| readFile (p : string)
| writeFile (p content : string)
| uploadFile (targetPath fileName : string)
| downloadFile (p : string)
| copyFile (from to : string)
| moveFile (from to : string).

(** Which of the optional props are provided. *)
Record Props := mkProps {
  has_uploadFile : bool;
  has_downloadFile : bool;
  has_copyFile : bool;
  has_moveFile : bool
}.

(** The component's state ([useState]) and the calls made so far, latest
    first.  A call on the back-end is taken to resolve, unless the handler
    is given the [Outcome] of the call. *)
Record State := mkState {
  filter_text : string;           (* [filter] in the source *)
  currentPath : string;
  editingFile : option string;
  fileContent : string;
  editorReadOnly : bool;
  clipboard : Clipboard;
  contextMenu : ContextMenu;
  calls : list BackendCall
}.

Definition initial : State :=
  {| filter_text := ""; currentPath := ""; editingFile := None;
     fileContent := ""; editorReadOnly := false;
     clipboard := mkClipboard None None;
     contextMenu := mkMenu false 0 0 None;
     calls := [] |}.

Definition textReadableExts : list string :=
  [ "txt"; "log"; "cfg"; "conf"; "config"; "ini"; "json"; "yml"; "yaml";
    "properties"; "csv"; "md"; "xml"; "plugin"; "skript"; "lang" ].

Definition mem (s : string) (l : list string) : bool := existsb (String.eqb s) l.

Section WithRuntime.
Context {R : JSRuntime}.

(** [filename.split(".").pop()?.toLowerCase()] *)
Definition extension (filename : string) : string :=
  toLowerCase (JS.pop (JS.split "." filename) "").

Definition isTextReadable (filename : string) : bool :=
  let ext := extension filename in
  JS.truthy ext && mem ext textReadableExts.

Definition isReadable (f : ServerFile) : bool :=
  if negb (FileType_eqb (type f) file) then false
  else if negb (isTextReadable (name f)) then false
  else
    match size f with
    | Some s => if (negb (s =? 0) && (s >? 5 * 1024 * 1024))%Z then false else true
    | None => true
    end.

(** The descent of [getCurrentFiles] over own keys: [None] when a segment is
    missing ([PlainObject.getCurrentFiles] is the function with what the
    objects inherit). *)
Fixpoint descend (ps : list string) (current : Tree) : option Tree :=
  match ps with
  | [] => Some current
  | part :: ps' =>
      match lookup part current with
      | Some n => descend ps' (children n)
      | None => None
      end
  end.

Definition getCurrentFiles (fileTree : Tree) (currentPath : string) : list ServerFile :=
  if negb (JS.truthy currentPath) then values fileTree
  else
    match descend (parts currentPath) fileTree with
    | Some current => values current
    | None => []
    end.

(** The predicate of [.filter(...)] in [currentFiles]. *)
Definition matches (flt : string) (f : ServerFile) : bool :=
  if negb (JS.truthy flt) then true
  else JS.includes (toLowerCase (name f)) (toLowerCase flt).

(** The comparator of [.sort(...)] in [currentFiles]. *)
Definition compareFiles (a b : ServerFile) : Z :=
  if negb (FileType_eqb (type a) (type b))
  then match type a with directory => (-1)%Z | file => 1%Z end
  else localeCompare (name a) (name b).

Definition listing (flt : string) (entries : list ServerFile) : list ServerFile :=
  JS.sort compareFiles (filter (matches flt) entries).

Definition currentFiles (files : list ServerFile) (st : State) : list ServerFile :=
  listing (filter_text st) (getCurrentFiles (buildFileTree files) (currentPath st)).

End WithRuntime.

Definition closeContextMenu (st : State) : State :=
  {| filter_text := filter_text st; currentPath := currentPath st;
     editingFile := editingFile st; fileContent := fileContent st;
     editorReadOnly := editorReadOnly st; clipboard := clipboard st;
     contextMenu := mkMenu false 0 0 None; calls := calls st |}.

Definition setClipboard (c : Clipboard) (st : State) : State :=
  {| filter_text := filter_text st; currentPath := currentPath st;
     editingFile := editingFile st; fileContent := fileContent st;
     editorReadOnly := editorReadOnly st; clipboard := c;
     contextMenu := contextMenu st; calls := calls st |}.

Definition call (c : BackendCall) (st : State) : State :=
  {| filter_text := filter_text st; currentPath := currentPath st;
     editingFile := editingFile st; fileContent := fileContent st;
     editorReadOnly := editorReadOnly st; clipboard := clipboard st;
     contextMenu := contextMenu st; calls := c :: calls st |}.

Definition handleCopy (target : ServerFile) (st : State) : State :=
  closeContextMenu (setClipboard (mkClipboard (Some copy) (Some (path target))) st).

Definition handleCut (target : ServerFile) (st : State) : State :=
  closeContextMenu (setClipboard (mkClipboard (Some cut) (Some (path target))) st).

(** [clipboard.path.split("/").pop() || ""] *)
Definition basename (p : string) : string := JS.pop (JS.split "/" p) "".

(** [destinationPath ? `${destinationPath}/${name}` : name] *)
Definition pasteTarget (destinationPath nm : string) : string :=
  if JS.truthy destinationPath then destinationPath ++ "/" ++ nm else nm.

(** How a call on the back-end ends: its promise resolves, or it rejects
    ([api] rejects every answer that is not a success) and the [await] throws:
    the statements after it are not run. *)
Inductive Outcome := resolves | rejects.

(** [handlePaste(destinationPath = currentPath)]: [None] is the call without
    an argument, [outcome] is how [copyFile] or [moveFile] ends when it is
    called. *)
Definition handlePaste (props : Props) (outcome : Outcome)
  (destinationPath : option string) (st : State) : State :=
  let destinationPath :=
    match destinationPath with Some d => d | None => currentPath st end in
  match clip_path (clipboard st), action (clipboard st) with
  | Some p, Some a =>
      if negb (JS.truthy p) then st
      else
        let target := pasteTarget destinationPath (basename p) in
        match a with
        | copy =>
            if has_copyFile props then
              match outcome with
              | resolves => closeContextMenu (call (copyFile p target) st)
              | rejects => call (copyFile p target) st
              end
            else closeContextMenu st
        | cut =>
            if has_moveFile props then
              match outcome with
              | resolves =>
                  closeContextMenu
                    (setClipboard (mkClipboard None None) (call (moveFile p target) st))
              | rejects => call (moveFile p target) st
              end
            else closeContextMenu (setClipboard (mkClipboard None None) st)
        end
  | _, _ => st
  end.

Definition handleDownload (props : Props) (target : ServerFile) (st : State) : State :=
  closeContextMenu
    (if has_downloadFile props then call (downloadFile (path target)) st else st).

Definition placeholder : string :=
  "// Cannot preview this file (binary or too large)".

(** [handleFileClick] run to its end: [content] is what [readFile] resolves
    to, when it does and nothing else happens in between ([FileActions] has
    the two halves, before and after the [await]). *)
Definition handleFileClick {R : JSRuntime} (content : string) (f : ServerFile) (st : State) : State :=
  match type f with
  | directory =>
      {| filter_text := ""; currentPath := path f;
         editingFile := editingFile st; fileContent := fileContent st;
         editorReadOnly := editorReadOnly st; clipboard := clipboard st;
         contextMenu := contextMenu st; calls := calls st |}
  | file =>
      let readable := isReadable f in
      {| filter_text := filter_text st; currentPath := currentPath st;
         editingFile := Some (path f);
         fileContent := if readable then content else placeholder;
         editorReadOnly := negb readable;
         clipboard := clipboard st; contextMenu := contextMenu st;
         calls := if readable then readFile (path f) :: calls st else calls st |}
  end.

(** The first button of the context menu: open, or download and preview. *)
Definition contextMenuOpen {R : JSRuntime} (props : Props) (content : string)
  (f : ServerFile) (st : State) : State :=
  if isReadable f then handleFileClick content f st else handleDownload props f st.

(** [handleSave]; [writeFile] is a required prop. *)
Definition handleSave (st : State) : State :=
  {| filter_text := filter_text st; currentPath := currentPath st;
     editingFile := None; fileContent := ""; editorReadOnly := false;
     clipboard := clipboard st; contextMenu := contextMenu st;
     calls :=
       match editingFile st with
       | Some p =>
           if JS.truthy p && negb (editorReadOnly st)
           then writeFile p (fileContent st) :: calls st
           else calls st
       | None => calls st
       end |}.

(** [onFileInputChange]: [f] is the first file of the input, if any. *)
Definition onFileInputChange (props : Props) (f : option string) (st : State) : State :=
  match f with
  | None => st
  | Some fileName =>
      if has_uploadFile props then call (uploadFile (currentPath st) fileName) st else st
  end.

(** The props [page.tsx] passes: every optional function is provided. *)
Definition page_props : Props := mkProps true true true true.

End Explorer.

(** ** components/server/ConsoleOutput.tsx *)

Module Console.

Section WithRuntime.
Context {R : JSRuntime}.

(** One element of the [.map(...)] of [downloadLogs]:
    [`[${msg.timestamp}] [${msg.type?.toUpperCase()}] ${msg.text || msg.data}`] *)
Definition line (msg : ConsoleMessage) : string :=
  "[" ++ JS.show (timestamp msg) ++ "] [" ++ toUpperCase (msg_type msg) ++ "] "
      ++ JS.show (JS.or_else (text msg) (data msg)).

(** The text [downloadLogs] puts in the downloaded file. *)
Definition downloadLogs (consoleOutput : list ConsoleMessage) : string :=
  JS.join (String nl "") (map line consoleOutput).

(** What a record shows in the transcript. *)
Definition shown (msg : ConsoleMessage) : string * string * string :=
  (JS.show (timestamp msg), toUpperCase (msg_type msg),
   JS.show (JS.or_else (text msg) (data msg))).

End WithRuntime.

(** [s] holds the character [c]. *)
Fixpoint has (c : ascii) (s : string) : bool :=
  match s with
  | EmptyString => false
  | String a rest => Ascii.eqb a c || has c rest
  end.

(** A record whose shown fields hold no line break, and no closing bracket
    before the text. *)
Definition readable_back {R : JSRuntime} (msg : ConsoleMessage) : Prop :=
  let '(ts, ty, txt) := shown msg in
  has "]" ts = false /\ has nl ts = false /\
  has "]" ty = false /\ has nl ty = false /\
  has nl txt = false.

(** The characters of [s] before the first [c], and what follows that [c]. *)
Fixpoint until (c : ascii) (s : string) : option (string * string) :=
  match s with
  | EmptyString => None
  | String a rest =>
      if Ascii.eqb a c then Some (EmptyString, rest)
      else match until c rest with
           | Some (before, after) => Some (String a before, after)
           | None => None
           end
  end.

(** [s] without the prefix [p], when it starts with it. *)
Fixpoint strip (p s : string) : option string :=
  match p, s with
  | EmptyString, _ => Some s
  | String a p', String b s' => if Ascii.eqb a b then strip p' s' else None
  | String _ _, EmptyString => None
  end.

(** Modelled from the spec: the reader of an exported line, which the
    repository does not contain.  The spec names the pattern
    [[ts] [TYPE] text]: an opening bracket, the timestamp up to the first
    closing bracket, a space and an opening bracket, the type up to the next
    closing bracket, a space, and the text to the end of the line. *)
Definition parse_line (l : string) : option (string * string * string) :=
  match strip "[" l with
  | None => None
  | Some l1 =>
      match until "]" l1 with
      | None => None
      | Some (ts, l2) =>
          match strip " [" l2 with
          | None => None
          | Some l3 =>
              match until "]" l3 with
              | None => None
              | Some (ty, l4) =>
                  match strip " " l4 with
                  | None => None
                  | Some txt => Some (ts, ty, txt)
                  end
              end
          end
      end
  end.

(** Modelled from the spec: reading a transcript back, line by line. *)
Definition parse_transcript (logText : string) : list (option (string * string * string)) :=
  map parse_line (JS.split nl logText).

(** The triple a record stands for: its timestamp, type and text. *)
Definition triple (msg : ConsoleMessage) : string * string * string :=
  (JS.show (timestamp msg), msg_type msg, JS.show (JS.or_else (text msg) (data msg))).

End Console.

(** ** app/dashboard/server/[name]/page.tsx *)

Module Page.

Inductive ReadyState := CONNECTING | OPEN | CLOSING | CLOSED.

(** The frames the page sends: [{ action, data? }]. *)
Inductive Action := start | stop | restart | pong | command (d : string).

(** The component's state ([useState]), its two refs, and what the browser
    holds for it: the sockets made so far (a socket is its index), the frames
    handed to the network, the pending [setTimeout] handles, and the socket
    the registered effect clean-up closes over. *)
Record State := mkState {
  serverDetails : option ServerDetails;
  loading : bool;
  error : string;
  actionInProgress : string;
  consoleOutput : list ConsoleMessage;
  showEulaModal : bool;
  socket : option nat;
  files : list ServerFile;
  reconnectTimeoutRef : option nat;
  isReconnectingRef : bool;
  sockets : list ReadyState;
  sent : list (nat * Action);
  timers : list nat;
  nextTimer : nat;
  cleanup : option nat
}.

Definition initial : State :=
  {| serverDetails := None; loading := true; error := ""; actionInProgress := "";
     consoleOutput := []; showEulaModal := false; socket := None; files := [];
     reconnectTimeoutRef := None; isReconnectingRef := false;
     sockets := []; sent := []; timers := []; nextTimer := 1; cleanup := None |}.

(** The setters of [useState], and the assignments to the refs and to what
    the browser holds. *)
Definition setServerDetails (v : option ServerDetails) (st : State) : State :=
  {| serverDetails := v; loading := loading st; error := error st;
     actionInProgress := actionInProgress st; consoleOutput := consoleOutput st;
     showEulaModal := showEulaModal st; socket := socket st; files := files st;
     reconnectTimeoutRef := reconnectTimeoutRef st;
     isReconnectingRef := isReconnectingRef st; sockets := sockets st;
     sent := sent st; timers := timers st; nextTimer := nextTimer st;
     cleanup := cleanup st |}.

Definition setLoading (v : bool) (st : State) : State :=
  {| serverDetails := serverDetails st; loading := v; error := error st;
     actionInProgress := actionInProgress st; consoleOutput := consoleOutput st;
     showEulaModal := showEulaModal st; socket := socket st; files := files st;
     reconnectTimeoutRef := reconnectTimeoutRef st;
     isReconnectingRef := isReconnectingRef st; sockets := sockets st;
     sent := sent st; timers := timers st; nextTimer := nextTimer st;
     cleanup := cleanup st |}.

Definition setError (v : string) (st : State) : State :=
  {| serverDetails := serverDetails st; loading := loading st; error := v;
     actionInProgress := actionInProgress st; consoleOutput := consoleOutput st;
     showEulaModal := showEulaModal st; socket := socket st; files := files st;
     reconnectTimeoutRef := reconnectTimeoutRef st;
     isReconnectingRef := isReconnectingRef st; sockets := sockets st;
     sent := sent st; timers := timers st; nextTimer := nextTimer st;
     cleanup := cleanup st |}.

Definition setActionInProgress (v : string) (st : State) : State :=
  {| serverDetails := serverDetails st; loading := loading st; error := error st;
     actionInProgress := v; consoleOutput := consoleOutput st;
     showEulaModal := showEulaModal st; socket := socket st; files := files st;
     reconnectTimeoutRef := reconnectTimeoutRef st;
     isReconnectingRef := isReconnectingRef st; sockets := sockets st;
     sent := sent st; timers := timers st; nextTimer := nextTimer st;
     cleanup := cleanup st |}.

Definition setConsoleOutput (v : list ConsoleMessage) (st : State) : State :=
  {| serverDetails := serverDetails st; loading := loading st; error := error st;
     actionInProgress := actionInProgress st; consoleOutput := v;
     showEulaModal := showEulaModal st; socket := socket st; files := files st;
     reconnectTimeoutRef := reconnectTimeoutRef st;
     isReconnectingRef := isReconnectingRef st; sockets := sockets st;
     sent := sent st; timers := timers st; nextTimer := nextTimer st;
     cleanup := cleanup st |}.

Definition setShowEulaModal (v : bool) (st : State) : State :=
  {| serverDetails := serverDetails st; loading := loading st; error := error st;
     actionInProgress := actionInProgress st; consoleOutput := consoleOutput st;
     showEulaModal := v; socket := socket st; files := files st;
     reconnectTimeoutRef := reconnectTimeoutRef st;
     isReconnectingRef := isReconnectingRef st; sockets := sockets st;
     sent := sent st; timers := timers st; nextTimer := nextTimer st;
     cleanup := cleanup st |}.

Definition setSocket (v : option nat) (st : State) : State :=
  {| serverDetails := serverDetails st; loading := loading st; error := error st;
     actionInProgress := actionInProgress st; consoleOutput := consoleOutput st;
     showEulaModal := showEulaModal st; socket := v; files := files st;
     reconnectTimeoutRef := reconnectTimeoutRef st;
     isReconnectingRef := isReconnectingRef st; sockets := sockets st;
     sent := sent st; timers := timers st; nextTimer := nextTimer st;
     cleanup := cleanup st |}.

Definition setFiles (v : list ServerFile) (st : State) : State :=
  {| serverDetails := serverDetails st; loading := loading st; error := error st;
     actionInProgress := actionInProgress st; consoleOutput := consoleOutput st;
     showEulaModal := showEulaModal st; socket := socket st; files := v;
     reconnectTimeoutRef := reconnectTimeoutRef st;
     isReconnectingRef := isReconnectingRef st; sockets := sockets st;
     sent := sent st; timers := timers st; nextTimer := nextTimer st;
     cleanup := cleanup st |}.

Definition setReconnectTimeoutRef (v : option nat) (st : State) : State :=
  {| serverDetails := serverDetails st; loading := loading st; error := error st;
     actionInProgress := actionInProgress st; consoleOutput := consoleOutput st;
     showEulaModal := showEulaModal st; socket := socket st; files := files st;
     reconnectTimeoutRef := v; isReconnectingRef := isReconnectingRef st;
     sockets := sockets st; sent := sent st; timers := timers st;
     nextTimer := nextTimer st; cleanup := cleanup st |}.

Definition setIsReconnectingRef (v : bool) (st : State) : State :=
  {| serverDetails := serverDetails st; loading := loading st; error := error st;
     actionInProgress := actionInProgress st; consoleOutput := consoleOutput st;
     showEulaModal := showEulaModal st; socket := socket st; files := files st;
     reconnectTimeoutRef := reconnectTimeoutRef st; isReconnectingRef := v;
     sockets := sockets st; sent := sent st; timers := timers st;
     nextTimer := nextTimer st; cleanup := cleanup st |}.

Definition setSockets (v : list ReadyState) (st : State) : State :=
  {| serverDetails := serverDetails st; loading := loading st; error := error st;
     actionInProgress := actionInProgress st; consoleOutput := consoleOutput st;
     showEulaModal := showEulaModal st; socket := socket st; files := files st;
     reconnectTimeoutRef := reconnectTimeoutRef st;
     isReconnectingRef := isReconnectingRef st; sockets := v; sent := sent st;
     timers := timers st; nextTimer := nextTimer st; cleanup := cleanup st |}.

Definition setSent (v : list (nat * Action)) (st : State) : State :=
  {| serverDetails := serverDetails st; loading := loading st; error := error st;
     actionInProgress := actionInProgress st; consoleOutput := consoleOutput st;
     showEulaModal := showEulaModal st; socket := socket st; files := files st;
     reconnectTimeoutRef := reconnectTimeoutRef st;
     isReconnectingRef := isReconnectingRef st; sockets := sockets st; sent := v;
     timers := timers st; nextTimer := nextTimer st; cleanup := cleanup st |}.

Definition setTimers (v : list nat) (st : State) : State :=
  {| serverDetails := serverDetails st; loading := loading st; error := error st;
     actionInProgress := actionInProgress st; consoleOutput := consoleOutput st;
     showEulaModal := showEulaModal st; socket := socket st; files := files st;
     reconnectTimeoutRef := reconnectTimeoutRef st;
     isReconnectingRef := isReconnectingRef st; sockets := sockets st;
     sent := sent st; timers := v; nextTimer := nextTimer st;
     cleanup := cleanup st |}.

Definition setNextTimer (v : nat) (st : State) : State :=
  {| serverDetails := serverDetails st; loading := loading st; error := error st;
     actionInProgress := actionInProgress st; consoleOutput := consoleOutput st;
     showEulaModal := showEulaModal st; socket := socket st; files := files st;
     reconnectTimeoutRef := reconnectTimeoutRef st;
     isReconnectingRef := isReconnectingRef st; sockets := sockets st;
     sent := sent st; timers := timers st; nextTimer := v; cleanup := cleanup st |}.

Definition setCleanup (v : option nat) (st : State) : State :=
  {| serverDetails := serverDetails st; loading := loading st; error := error st;
     actionInProgress := actionInProgress st; consoleOutput := consoleOutput st;
     showEulaModal := showEulaModal st; socket := socket st; files := files st;
     reconnectTimeoutRef := reconnectTimeoutRef st;
     isReconnectingRef := isReconnectingRef st; sockets := sockets st;
     sent := sent st; timers := timers st; nextTimer := nextTimer st;
     cleanup := v |}.

Definition readyState (w : nat) (st : State) : ReadyState := nth w (sockets st) CLOSED.

Fixpoint replace_nth {A} (n : nat) (v : A) (l : list A) : list A :=
  match l, n with
  | [], _ => []
  | _ :: l', O => v :: l'
  | a :: l', S n' => a :: replace_nth n' v l'
  end.

Definition setReadyState (w : nat) (r : ReadyState) (st : State) : State :=
  setSockets (replace_nth w r (sockets st)) st.

(** [ws.send(frame)]: throws ([None]) while the socket is connecting, sends
    when it is open, and drops the frame once it is closing or closed. *)
Definition ws_send (w : nat) (a : Action) (st : State) : option State :=
  match readyState w st with
  | CONNECTING => None
  | OPEN => Some (setSent ((w, a) :: sent st) st)
  | CLOSING | CLOSED => Some st
  end.

(** [setTimeout]: a fresh handle, now pending. *)
Definition setTimeout (st : State) : nat * State :=
  (nextTimer st, setNextTimer (S (nextTimer st)) (setTimers (nextTimer st :: timers st) st)).

Definition clearTimeout (t : nat) (st : State) : State :=
  setTimers (remove Nat.eq_dec t (timers st)) st.

(** The body of the effect: nothing when a socket is held or a reconnect is
    pending, else a new socket, and a clean-up closing over it. *)
Definition effect (st : State) : State :=
  match socket st with
  | Some _ => setCleanup None st
  | None =>
      if isReconnectingRef st then setCleanup None st
      else setCleanup (Some (List.length (sockets st)))
             (setSockets (sockets st ++ [CONNECTING]) st)
  end.

Definition onopen (w : nat) (st : State) : State :=
  setIsReconnectingRef false (setSocket (Some w) st).

Definition setStatus (s : string) (d : ServerDetails) : ServerDetails :=
  {| server_name := server_name d; status := s; server_type := server_type d;
     version := version d; metrics := metrics d; port := port d;
     maxPlayers := maxPlayers d; players := players d; ip := ip d |}.

Definition setPlayers (p : list string) (d : ServerDetails) : ServerDetails :=
  {| server_name := server_name d; status := status d; server_type := server_type d;
     version := version d; metrics := metrics d; port := port d;
     maxPlayers := maxPlayers d; players := p; ip := ip d |}.

(** [ws.onmessage]: [None] is a frame [JSON.parse] rejects. *)
Definition onmessage (w : nat) (frame : option SocketMessage) (st : State) : State :=
  match frame with
  | None => st
  | Some (console d) => setConsoleOutput (consoleOutput st ++ [d]) st
  | Some (info_msg d) => setLoading false (setServerDetails (Some d) st)
  | Some ping => match ws_send w pong st with Some st' => st' | None => st end
  | Some need_eula => setShowEulaModal true st
  | Some (error_msg d) => setError (if JS.truthy d then d else "An error occurred") st
  | Some (status_msg d) =>
      let st1 := setServerDetails (option_map (setStatus d) (serverDetails st)) st in
      if (d =? "online") || (d =? "offline") then setActionInProgress "" st1 else st1
  | Some (player_update d) =>
      setServerDetails (option_map (setPlayers d) (serverDetails st)) st
  | Some (file_init d) => setFiles d st
  | Some (file_update d _) => setFiles d st
  end.

Definition onclose (code : Z) (st : State) : State :=
  let st1 := setSocket None st in
  if negb (code =? 1000)%Z && negb (isReconnectingRef st1) then
    let '(t, st2) := setTimeout (setIsReconnectingRef true st1) in
    setReconnectTimeoutRef (Some t) st2
  else st1.

(** The function given to [setTimeout] in [onclose]. *)
Definition reconnect_callback (st : State) : State :=
  setSocket None (setIsReconnectingRef false st).

(** The function the effect returns, for the socket [w] it made. *)
Definition teardown (w : nat) (st : State) : State :=
  let st1 :=
    match reconnectTimeoutRef st with
    | Some t => clearTimeout t st
    | None => st
    end in
  match readyState w st1 with
  | OPEN => setReadyState w CLOSING st1      (* ws.close(1000, ...) *)
  | _ => st1
  end.

Definition run_cleanup (st : State) : State :=
  match cleanup st with
  | Some w => teardown w st
  | None => st
  end.

(** [startServer], [stopServer] and [restartServer] differ in three strings. *)
Definition lifecycle (flag : string) (a : Action) (failure : string) (st : State) : State :=
  match socket st with
  | None => st
  | Some w =>
      if JS.truthy (actionInProgress st) then st
      else
        let st1 := setActionInProgress flag st in
        match ws_send w a st1 with
        | Some st2 => st2
        | None => setActionInProgress "" (setError failure st1)
        end
  end.

Definition startServer : State -> State :=
  lifecycle "starting" start "Failed to start server".
Definition stopServer : State -> State :=
  lifecycle "stopping" stop "Failed to stop server".
Definition restartServer : State -> State :=
  lifecycle "restarting" restart "Failed to restart server".

(** [acceptEula] up to its first [await], and from the answer on. *)
Definition acceptEula_begin (st : State) : State :=
  setActionInProgress "accepting_eula" st.

Definition acceptEula_end (ok : bool) (st : State) : State :=
  if ok then setActionInProgress "" (setShowEulaModal false st)
  else setActionInProgress "" (setError "Failed to accept EULA" st).

(** What can happen to the page. *)
Inductive Event :=
| RunEffect   (* the effect runs: on mount, and again (after its clean-up)
                 when [serverName] changes or React mounts a second time *)
| Unmount
| WsOpen (w : nat)
| WsMessage (w : nat) (frame : option SocketMessage)
| WsClose (w : nat) (code : Z)
| TimerFire (t : nat)
| ClickStart | ClickStop | ClickRestart
| AcceptEulaBegin
| AcceptEulaEnd (ok : bool).

(** One event: [None] when the browser cannot deliver it (a socket opens
    once, from connecting; closes once; a timer fires while pending). *)
Definition step (st : State) (ev : Event) : option State :=
  match ev with
  | RunEffect => Some (effect (run_cleanup st))
  | Unmount => Some (setCleanup None (run_cleanup st))
  | WsOpen w =>
      match readyState w st with
      | CONNECTING => Some (onopen w (setReadyState w OPEN st))
      | _ => None
      end
  | WsMessage w frame =>
      match readyState w st with
      | OPEN => Some (onmessage w frame st)
      | _ => None
      end
  | WsClose w code =>
      match readyState w st with
      | CLOSED => None
      | _ => Some (onclose code (setReadyState w CLOSED st))
      end
  | TimerFire t =>
      if existsb (Nat.eqb t) (timers st)
      then Some (reconnect_callback (clearTimeout t st))
      else None
  | ClickStart => Some (startServer st)
  | ClickStop => Some (stopServer st)
  | ClickRestart => Some (restartServer st)
  | AcceptEulaBegin => Some (acceptEula_begin st)
  | AcceptEulaEnd ok => Some (acceptEula_end ok st)
  end.

Fixpoint run (evs : list Event) (st : State) : option State :=
  match evs with
  | [] => Some st
  | ev :: evs' =>
      match step st ev with
      | Some st' => run evs' st'
      | None => None
      end
  end.

(** At most one timer is pending, and the flag and the ref know of it. *)
Definition single_timer (st : State) : Prop :=
  timers st = [] \/
  (isReconnectingRef st = true /\
   exists t, timers st = [t] /\ reconnectTimeoutRef st = Some t).

(** A run in which no socket opens while a reconnect timer is pending. *)
Fixpoint calm (evs : list Event) (st : State) : Prop :=
  match evs with
  | [] => True
  | ev :: evs' =>
      match ev with WsOpen _ => timers st = [] | _ => True end
      /\ match step st ev with
         | Some st' => calm evs' st'
         | None => True
         end
  end.

(** The messages [msgs] arriving in order on the socket [w]. *)
Definition deliver (w : nat) (msgs : list SocketMessage) (st : State) : State :=
  fold_left (fun st m => onmessage w (Some m) st) msgs st.

(** A [file_update] message: its listing and its change list. *)
Definition update_msg (u : list ServerFile * list FileChangeEvent) : SocketMessage :=
  file_update (fst u) (snd u).

(** The path set the specification describes, in its words: the paths of the
    [file_init] listing, plus the path of each added or modified change,
    minus the path of each deleted change, the changes taken in order. *)
Definition apply_change (paths : list string) (c : FileChangeEvent) : list string :=
  match event c with
  | added | modified_ => change_path c :: paths
  | deleted => remove string_dec (change_path c) paths
  end.

Definition expected_paths (init : list ServerFile)
  (updates : list (list ServerFile * list FileChangeEvent)) : list string :=
  fold_left (fun paths u => fold_left apply_change (snd u) paths) updates (map path init).

(** The calls on the file back-end. *)
Record Request := mkRequest {
  method : string;
  url : string;
  payload : list (string * string)
}.

Definition rootSentinel : string :=
  "current_directory_super_long_because_empty_string_is_bad_and_also_if_there_were_someone_stupid_enough_to_name_a_folder_like_this_we_need_to_handle_it_properly".

(** [targetPath] after the [if] of [uploadFile]. *)
Definition uploadTarget (targetPath : string) : string :=
  if negb (JS.truthy targetPath) || (targetPath =? "") then rootSentinel else targetPath.

Definition uploadFile (serverName targetPath fileName : string) : Request :=
  mkRequest "POST" ("/servers/" ++ serverName ++ "/files/upload/" ++ uploadTarget targetPath)
    [("file", fileName)].

Definition copyFile (serverName from to : string) : Request :=
  mkRequest "POST" ("/servers/" ++ serverName ++ "/files/copy")
    [("source", from); ("destination", to)].

Definition moveFile (serverName from to : string) : Request :=
  mkRequest "POST" ("/servers/" ++ serverName ++ "/files/move")
    [("source", from); ("destination", to)].

End Page.

(** ** One implementation of the built-ins: strings of ASCII characters,
    ordered by code unit *)

Definition lower_char (c : ascii) : ascii :=
  let n := nat_of_ascii c in
  if (65 <=? n)%nat && (n <=? 90)%nat then ascii_of_nat (n + 32) else c.

Definition upper_char (c : ascii) : ascii :=
  let n := nat_of_ascii c in
  if (97 <=? n)%nat && (n <=? 122)%nat then ascii_of_nat (n - 32) else c.

Fixpoint map_string (f : ascii -> ascii) (s : string) : string :=
  match s with
  | EmptyString => EmptyString
  | String c rest => String (f c) (map_string f rest)
  end.

Definition compare_code_units (a b : string) : Z :=
  match String.compare a b with
  | Lt => (-1)%Z
  | Eq => 0%Z
  | Gt => 1%Z
  end.

#[export] Instance ascii_runtime : JSRuntime :=
  {| toLowerCase := map_string lower_char;
     toUpperCase := map_string upper_char;
     localeCompare := compare_code_units |}.

(** ** components/server/Files: the other handlers of the explorer *)

Module FileActions.
Import Files Explorer.

(** A segment of a path: not empty, and without a separator. *)
Definition segment (s : string) : bool := JS.truthy s && negb (Console.has "/" s).

(** [setCurrentPath(path); setFilter("")] *)
Definition navigateToPath (p : string) (st : State) : State :=
  {| filter_text := ""; currentPath := p;
     editingFile := editingFile st; fileContent := fileContent st;
     editorReadOnly := editorReadOnly st; clipboard := clipboard st;
     contextMenu := contextMenu st; calls := calls st |}.

(** The breadcrumbs after [Root]: for each index of
    [pathParts = currentPath.split("/").filter(Boolean)] the label [part] and
    the target [pathParts.slice(0, index + 1).join("/")]. *)
Definition breadcrumbs (currentPath : string) : list (string * string) :=
  let pathParts := parts currentPath in
  map (fun index => (nth index pathParts "", JS.join "/" (firstn (S index) pathParts)))
      (seq 0 (List.length pathParts)).

(** [target.path.split("/").slice(0, -1).concat(newName).join("/")] *)
Definition renamedPath (p newName : string) : string :=
  JS.join "/" (removelast (JS.split "/" p) ++ [newName]).

(** [handleRename]: [answer] is what [prompt] returns, [None] when the
    dialogue is cancelled.  The state after is the one when [moveFile]
    resolves; when it is rejected the menu is left open. *)
Definition handleRename (props : Props) (answer : option string)
  (target : ServerFile) (st : State) : State :=
  match answer with
  | None => st
  | Some newName =>
      if negb (JS.truthy newName) || (newName =? name target) then st
      else
        closeContextMenu
          (if has_moveFile props
           then call (moveFile (path target) (renamedPath (path target) newName)) st
           else st)
  end.

(** The [onChange] of the editor's text area. *)
Definition setFileContent (content : string) (st : State) : State :=
  {| filter_text := filter_text st; currentPath := currentPath st;
     editingFile := editingFile st; fileContent := content;
     editorReadOnly := editorReadOnly st; clipboard := clipboard st;
     contextMenu := contextMenu st; calls := calls st |}.

(** [handleFileClick] up to [await readFile(file.path)]: the editor is
    opened on the file with the content it held before. *)
Definition handleFileClick_begin {R : JSRuntime} (f : ServerFile) (st : State) : State :=
  match type f with
  | directory =>
      {| filter_text := ""; currentPath := path f;
         editingFile := editingFile st; fileContent := fileContent st;
         editorReadOnly := editorReadOnly st; clipboard := clipboard st;
         contextMenu := contextMenu st; calls := calls st |}
  | file =>
      let readable := isReadable f in
      {| filter_text := filter_text st; currentPath := currentPath st;
         editingFile := Some (path f);
         fileContent := if readable then fileContent st else placeholder;
         editorReadOnly := negb readable;
         clipboard := clipboard st; contextMenu := contextMenu st;
         calls := if readable then readFile (path f) :: calls st else calls st |}
  end.

(** ... and from the answer of [readFile] on: [setFileContent(content)].  When
    the read is rejected nothing more is done. *)
Definition handleFileClick_resolved (content : string) (st : State) : State :=
  setFileContent content st.

(** The requests of the archive and delete handlers, which [BackendCall]
    does not list. *)
Inductive ArchiveCall :=
| zipFiles (paths : list string)
| unzipFile (p : string)
| deleteFile (p : string).

(** [handleZip(target?)]: the paths handed to [zipFiles], and the state after
    when the request resolves ([zipFiles] is provided, as [page.tsx] does). *)
Definition handleZip {R : JSRuntime} (files : list ServerFile)
  (target : option ServerFile) (st : State) : ArchiveCall * State :=
  let paths :=
    match target with
    | Some t => [path t]
    | None => map path (currentFiles files st)
    end in
  (zipFiles paths, closeContextMenu st).

(** [handleDelete]: [confirmed] is the answer of [confirm]. *)
Definition handleDelete (confirmed : bool) (target : ServerFile) (st : State)
  : option ArchiveCall * State :=
  (if confirmed then Some (deleteFile (path target)) else None, closeContextMenu st).

End FileActions.

(** ** page.tsx: the other calls on the file back-end, and commands *)

Module PageActions.
Import Page.

(** The name [downloadFile] saves under: [path.split("/").pop() || "file"]. *)
Definition downloadName (p : string) : string :=
  let nm := JS.pop (JS.split "/" p) "" in
  if JS.truthy nm then nm else "file".

(** The body [zipFiles] posts: [{ paths, name: paths[0] }]; [None] is
    [undefined]. *)
Definition zipBody (paths : list string) : list string * option string :=
  (paths, nth_error paths 0).

(** [sendWebSocketCommand]: the page and the text of the command input. *)
Definition sendWebSocketCommand (cmd : string) (p : State * string) : State * string :=
  match socket (fst p) with
  | None => p
  | Some w =>
      match readyState w (fst p) with
      | OPEN =>
          match ws_send w (command cmd) (fst p) with
          | Some st' => (st', "")
          | None => p
          end
      | _ => p
      end
  end.

(** The three screens the page renders. *)
Inductive Screen :=
| Loader
| ErrorScreen (message : string)
| Main (d : ServerDetails).

(** [if (loading) ...; if (error || !serverDetails) ...; ...] *)
Definition render (st : State) : Screen :=
  if loading st then Loader
  else
    match serverDetails st with
    | Some d => if JS.truthy (error st) then ErrorScreen (error st) else Main d
    | None =>
        ErrorScreen (if JS.truthy (error st) then error st
                     else "Failed to load server details")
    end.

(** The [disabled] attribute of the three buttons of [ServerControls], from
    the flags [page.tsx] computes from the status and [ServerHeader] passes
    on. *)
Record Controls := mkControls {
  startDisabled : bool;
  stopDisabled : bool;
  restartDisabled : bool
}.

Definition ServerControls (isOnline isStarting isStopping : bool) : Controls :=
  {| startDisabled := isOnline || isStarting || isStopping;
     stopDisabled := negb isOnline || isStopping;
     restartDisabled := negb isOnline || isStarting || isStopping |}.

Definition controls (d : ServerDetails) : Controls :=
  ServerControls (status d =? "online") (status d =? "starting") (status d =? "stopping").

(** The snapshot is absent exactly while the page is loading. *)
Definition loading_until_info (st : State) : Prop :=
  loading st = true <-> serverDetails st = None.

(** The socket the page holds is open or closing. *)
Definition held_socket_is_live (st : State) : Prop :=
  forall w, socket st = Some w -> readyState w st = OPEN \/ readyState w st = CLOSING.

End PageActions.

(** ** components/server/ConsoleOutput.tsx: the command line and the filter *)

Module CommandLine.

(** White space of [String.prototype.trim], among the code units below 256. *)
Definition isWhiteSpace (c : ascii) : bool :=
  let n := nat_of_ascii c in
  ((9 <=? n)%nat && (n <=? 13)%nat) || (n =? 32)%nat || (n =? 160)%nat.

Fixpoint trimStart (s : string) : string :=
  match s with
  | EmptyString => EmptyString
  | String c rest => if isWhiteSpace c then trimStart rest else s
  end.

Fixpoint trimEnd (s : string) : string :=
  match s with
  | EmptyString => EmptyString
  | String c rest =>
      match trimEnd rest with
      | EmptyString => if isWhiteSpace c then EmptyString else String c EmptyString
      | kept => String c kept
      end
  end.

(** [s.trim()] *)
Definition trim (s : string) : string := trimEnd (trimStart s).

Fixpoint blank (s : string) : bool :=
  match s with
  | EmptyString => true
  | String c rest => isWhiteSpace c && blank rest
  end.

(** [handleSubmit]: [sendCommand] is the prop, [None] when the console is
    shown without a command line. *)
Definition handleSubmit (sendCommand : option (string -> Page.State * string -> Page.State * string))
  (p : Page.State * string) : Page.State * string :=
  match sendCommand with
  | Some send => if JS.truthy (trim (snd p)) then send (snd p) p else p
  | None => p
  end.

(** The console tab of [page.tsx]: [sendCommand={(cmd) => sendWebSocketCommand(cmd)}]. *)
Definition submit (p : Page.State * string) : Page.State * string :=
  handleSubmit (Some PageActions.sendWebSocketCommand) p.

End CommandLine.

(** ** utils/api, and the token the login page stores *)

Module Api.

(** [s.startsWith(p)] *)
Definition startsWith (s p : string) : bool := String.prefix p s.

(** The request interceptor: the [Authorization] header it sets, if any;
    [token] is [localStorage.getItem("token")]. *)
Definition authorization (token : option string) : option string :=
  match token with
  | None => None
  | Some t =>
      if JS.truthy t
      then Some (if startsWith t "Bearer " then t else ("Bearer " ++ t)%string)
      else None
  end.

(** What the interceptors read and write of the browser. *)
Record Browser := mkBrowser {
  token : option string;     (* localStorage's "token" *)
  href : string              (* window.location.href *)
}.

(** The response interceptor on a failed request; [status] is
    [error.response.status], [None] without a response. *)
Definition onResponseError (status : option Z) (b : Browser) : Browser :=
  match status with
  | Some s =>
      if ((s =? 401) || (s =? 403))%Z
      then {| token := None; href := "/login" |}
      else b
  | None => b
  end.

(** What the login and signup pages store on success:
    [`${data.token_type} ${data.access_token}`]. *)
Definition storedToken (token_type access_token : string) : string :=
  token_type ++ " " ++ access_token.

End Api.

(** ** Plain objects: [buildFileTree] and [getCurrentFiles] with what [{}]
    inherits *)

Module PlainObject.
Import Files.

(** The properties of [Object.prototype], which every object made by [{}]
    inherits (ECMA-262, 20.1.3 and B.2.2.1). *)
Definition Object_prototype : list string :=
  [ "constructor"; "hasOwnProperty"; "isPrototypeOf"; "propertyIsEnumerable";
    "toLocaleString"; "toString"; "valueOf"; "__proto__";
    "__defineGetter__"; "__defineSetter__"; "__lookupGetter__"; "__lookupSetter__" ].

Definition inherits (part : string) : bool := existsb (String.eqb part) Object_prototype.

Arguments inherits : simpl never.

(** What [current[part]] evaluates to. *)
Inductive Found :=
| node (n : Node)   (* an own key: a node of the tree *)
| builtin           (* an inherited function or object: truthy, without [children] *)
| undefined.

Definition get (part : string) (current : Tree) : Found :=
  match lookup part current with
  | Some n => node n
  | None => if inherits part then builtin else undefined
  end.

(** The inner [parts.forEach((part, index) => ...)] of [buildFileTree], as
    [Files.walk].  At an inherited key [!current[part]] is false: no node is
    made and [current] becomes [current[part].children], which is
    [undefined]; the next segment, if there is one, reads a property of
    [undefined] and throws a [TypeError]: [None]. *)
Fixpoint walk (f : ServerFile) (seen rest : list string) (current : Tree) : option Tree :=
  match rest with
  | [] => Some current
  | part :: rest' =>
      let here := seen ++ [part] in
      let descend (n : Node) :=
        option_map (fun below => set part (mkNode (info n) below) current)
                   (walk f here rest' (children n)) in
      match get part current with
      | node n => descend n
      | undefined =>
          descend
            (mkNode {| name := part;
                       path := JS.join "/" here;
                       type := match rest' with [] => type f | _ => directory end;
                       size := match rest' with [] => size f | _ => None end;
                       modified := modified f |} [])
      | builtin =>
          match rest' with
          | [] => Some current
          | _ :: _ => None
          end
      end
  end.

(** One turn of [files.forEach]; once a walk has thrown nothing more is done. *)
Definition walk_entry (tree : option Tree) (f : ServerFile) : option Tree :=
  match tree with
  | Some t => walk f [] (parts (path f)) t
  | None => None
  end.

(** [buildFileTree]: [None] when it throws. *)
Definition buildFileTree (files : list ServerFile) : option Tree :=
  fold_left walk_entry files (Some []).

(** The flattened path set of the tree built from a listing. *)
Definition flattened (files : list ServerFile) : option (list string) :=
  option_map tree_paths (buildFileTree files).

(** No segment of the chain is an inherited key. *)
Definition plain (q : list string) : bool := forallb (fun k => negb (inherits k)) q.

(** The segments a walk stands on: those before the first inherited key. *)
Fixpoint trodden (ps : list string) : list string :=
  match ps with
  | [] => []
  | k :: r => if inherits k then [] else k :: trodden r
  end.

(** The walk goes on after an inherited key. *)
Fixpoint crosses (ps : list string) : bool :=
  match ps with
  | [] => false
  | k :: r =>
      if inherits k then match r with [] => false | _ :: _ => true end
      else crosses r
  end.

(** The entry as the walk uses it when it stops at an inherited key: every
    node it makes stands before the end of the path. *)
Definition stopped (f : ServerFile) : ServerFile :=
  if plain (parts (path f)) then f
  else {| path := path f; name := name f; type := directory; size := None;
          modified := modified f |}.

(** No key of the tree, at any level, is one that [{}] inherits. *)
Inductive clean : Tree -> Prop :=
| clean_nil : clean []
| clean_cons k n t :
    inherits k = false -> clean (children n) -> clean t -> clean ((k, n) :: t).

(** What a walk over [ps] reads of its entry [f], held by [g]: the kind and
    the size when it reaches the end of the path, and none of the two when
    it stops before. *)
Definition agrees (g f : ServerFile) (ps : list string) : Prop :=
  modified g = modified f
  /\ if plain ps
     then type g = type f /\ size g = size f
     else type g = directory /\ size g = None.

(** The entries of a listing walked over own keys, each as far as the code
    walks it. *)
Definition trodden_tree (files : list ServerFile) (t : Tree) : Tree :=
  fold_left
    (fun tree f => Files.walk (stopped f) [] (trodden (parts (path f))) tree)
    files t.

(** No path of the listing has a segment that is an inherited key. *)
Definition plain_listing (files : list ServerFile) : Prop :=
  forall f, In f files -> plain (parts (path f)) = true.

(** A decimal digit. *)
Definition digit (c : ascii) : option N :=
  let n := N_of_ascii c in
  if ((48 <=? n) && (n <=? 57))%N then Some (n - 48)%N else None.

Fixpoint numeral (s : string) (acc : N) : option N :=
  match s with
  | EmptyString => Some acc
  | String c rest =>
      match digit c with
      | Some d => numeral rest (10 * acc + d)%N
      | None => None
      end
  end.

(** An array index: the canonical numeral of an integer below [2^32 - 1]
    (ECMA-262, 6.1.7). *)
Definition arrayIndex (k : string) : option N :=
  match k with
  | EmptyString => None
  | String c rest =>
      if (c =? "0")%char then if rest =? "" then Some 0%N else None
      else
        match numeral k 0 with
        | Some n => if (n <? 2 ^ 32 - 1)%N then Some n else None
        | None => None
        end
  end.

Definition isIndex (kv : string * Node) : bool :=
  match arrayIndex (fst kv) with Some _ => true | None => false end.

Definition byIndex (a b : string * Node) : Z :=
  match arrayIndex (fst a), arrayIndex (fst b) with
  | Some i, Some j => (Z.of_N i - Z.of_N j)%Z
  | _, _ => 0%Z
  end.

(** The own keys of an object in the order of [Object.values]: the array
    indices first, ascending, then the other keys in insertion order. *)
Definition ownKeys (t : Tree) : Tree :=
  JS.sort byIndex (filter isIndex t) ++ filter (fun kv => negb (isIndex kv)) t.

(** [Object.values(current) as ServerFile[]] *)
Definition values (t : Tree) : list ServerFile :=
  map (fun kv => info (snd kv)) (ownKeys t).

(** The loop of [getCurrentFiles]: [Some None] when it returns [[]] at a
    missing segment.  At an inherited key [current] becomes [undefined], and
    the next read, or [Object.values] after the loop, throws: [None]. *)
Fixpoint descend (ps : list string) (current : Tree) : option (option Tree) :=
  match ps with
  | [] => Some (Some current)
  | part :: ps' =>
      match get part current with
      | node n => descend ps' (children n)
      | builtin => None
      | undefined => Some None
      end
  end.

(** [getCurrentFiles]: [None] when it throws. *)
Definition getCurrentFiles (fileTree : Tree) (currentPath : string)
  : option (list ServerFile) :=
  if negb (JS.truthy currentPath) then Some (values fileTree)
  else
    match descend (parts currentPath) fileTree with
    | Some (Some current) => Some (values current)
    | Some None => Some []
    | None => None
    end.

End PlainObject.

(** ** What the standards fix of the string built-ins *)

(** [toLowerCase] on a code unit below 256 (Unicode's default case
    conversion): the capitals A to Z, and U+00C0 to U+00DE but for the
    multiplication sign U+00D7, go 32 code units up. *)
Definition lower_unit (c : ascii) : ascii :=
  let n := nat_of_ascii c in
  if ((65 <=? n) && (n <=? 90) || (192 <=? n) && (n <=? 214)
      || (216 <=? n) && (n <=? 222))%nat
  then ascii_of_nat (n + 32) else c.

Definition lower (s : string) : string := map_string lower_unit s.

(** What holds of the built-ins in every browser: [toLowerCase] is Unicode's
    (ECMA-262); [localeCompare] is a consistent comparator, whose order is
    the locale's, and under its default sensitivity ([variant], ECMA-402) a
    difference in letter case is never ignored. *)
Record Conforming (R : JSRuntime) : Prop := {
  lower_case_units : forall s, toLowerCase s = lower s;
  collation_sign : forall a b, (localeCompare a b < 0 <-> 0 < localeCompare b a)%Z;
  collation_trans : forall a b c,
    (localeCompare a b <= 0 -> localeCompare b c <= 0 -> localeCompare a c <= 0)%Z;
  collation_case : forall a b,
    localeCompare a b = 0%Z -> toLowerCase a = toLowerCase b -> a = b
}.



(** * Properties *)

(** ** The file tree *)

Section FileTree.
Import Files.

Lemma lookup_set_same k n t : lookup k (set k n t) = Some n.
Proof.
  induction t as [|[k' n'] t IH]; simpl.
  - now rewrite String.eqb_refl.
  - destruct (k =? k') eqn:E; simpl; rewrite ?String.eqb_refl; auto.
    now rewrite E.
Qed.

Lemma lookup_set_other k k' n t : k' <> k -> lookup k' (set k n t) = lookup k' t.
Proof.
  intros Hne. induction t as [|[k0 n0] t IH]; simpl.
  - apply String.eqb_neq in Hne. now rewrite Hne.
  - destruct (k =? k0) eqn:E; simpl.
    + apply String.eqb_eq in E. subst k0.
      apply String.eqb_neq in Hne. now rewrite Hne.
    + destruct (k' =? k0); auto.
Qed.

(** One walk leaves every node it finds as it is, and adds the nodes of its
    own chain that were missing. *)
Lemma info_at_walk f ps : forall seen t q,
  info_at q (walk f seen ps t) =
  match info_at q t with
  | Some i => Some i
  | None => if reaches q ps then Some (created f seen q ps) else None
  end.
Proof.
  induction ps as [|p rest IH]; intros seen t q.
  - simpl. destruct (info_at q t); auto. destruct q as [|k [|k' q]]; reflexivity.
  - destruct q as [|k r].
    + reflexivity.
    + unfold info_at. cbn [walk resolve].
      destruct (String.eqb_spec k p) as [->|Hne].
      * rewrite lookup_set_same. cbn [children info].
        destruct r as [|k' r'].
        -- destruct (lookup p t) as [n|]; cbn; [reflexivity|].
           rewrite String.eqb_refl. unfold created. cbn.
           destruct rest; reflexivity.
        -- destruct (lookup p t) as [n|]; cbn [children info option_map].
           ++ change (option_map info (resolve (k' :: r') (walk f (seen ++ [p]) rest (children n))))
                with (info_at (k' :: r') (walk f (seen ++ [p]) rest (children n))).
              rewrite IH. unfold info_at.
              destruct (option_map info (resolve (k' :: r') (children n))); auto.
              cbn [reaches prefixb]. rewrite String.eqb_refl. cbn [andb].
              unfold created. cbn [List.length Nat.eqb last]. rewrite <- app_assoc. reflexivity.
           ++ change (option_map info (resolve (k' :: r') (walk f (seen ++ [p]) rest [])))
                with (info_at (k' :: r') (walk f (seen ++ [p]) rest [])).
              rewrite IH. unfold info_at.
              cbn [reaches prefixb resolve lookup option_map]. rewrite String.eqb_refl. cbn [andb].
              unfold created. cbn [List.length Nat.eqb last]. rewrite <- app_assoc. reflexivity.
      * rewrite lookup_set_other by assumption.
        destruct (lookup k t) as [n|]; cbn [option_map].
        -- destruct r; [reflexivity|]. destruct (resolve _ _); [reflexivity|].
           cbn. apply String.eqb_neq in Hne. now rewrite Hne.
        -- cbn. apply String.eqb_neq in Hne. rewrite Hne. destruct r; reflexivity.
Qed.

Lemma info_at_fold q files : forall t,
  info_at q (fold_left (fun tree f => walk f [] (parts (path f)) tree) files t) =
  match info_at q t with
  | Some i => Some i
  | None => option_map (created_by q) (creator q files)
  end.
Proof.
  induction files as [|f files IH]; intros t; simpl.
  - destruct (info_at q t); reflexivity.
  - rewrite IH, info_at_walk.
    destruct (info_at q t); [reflexivity|].
    destruct (reaches q (parts (path f))); reflexivity.
Qed.

Lemma info_at_build q files :
  info_at q (buildFileTree files) = option_map (created_by q) (creator q files).
Proof. unfold buildFileTree. rewrite info_at_fold. destruct q; reflexivity. Qed.

Lemma buildFileTree_app files later :
  buildFileTree (files ++ later) =
  fold_left (fun tree f => walk f [] (parts (path f)) tree) later (buildFileTree files).
Proof. unfold buildFileTree. apply fold_left_app. Qed.

Lemma creator_In q files f :
  creator q files = Some f -> In f files /\ reaches q (parts (path f)) = true.
Proof. intros H. apply find_some in H. exact H. Qed.

Lemma creator_exists q files f :
  In f files -> reaches q (parts (path f)) = true -> exists g, creator q files = Some g.
Proof.
  intros Hin Hr. destruct (creator q files) as [g|] eqn:E; [eauto|].
  unfold creator in E. eapply find_none in E; eauto. cbn in E. congruence.
Qed.

Lemma info_at_resolve q t i :
  info_at q t = Some i <-> exists n, resolve q t = Some n /\ info n = i.
Proof.
  unfold info_at. destruct (resolve q t) as [n|]; cbn; split.
  - intros [= <-]. eauto.
  - intros (n' & [= <-] & <-). reflexivity.
  - discriminate.
  - intros (n' & [=] & _).
Qed.

Lemma wf_set k n t : wf t -> wf (children n) -> wf (set k n t).
Proof.
  intros Ht Hn. induction Ht as [|k' n' t Hk Hc _ Ht IH]; simpl.
  - constructor; auto. constructor.
  - destruct (String.eqb_spec k k') as [->|Hne].
    + constructor; auto.
    + constructor; auto. rewrite lookup_set_other; auto.
Qed.

Lemma lookup_wf k t n : wf t -> lookup k t = Some n -> wf (children n).
Proof.
  induction 1 as [|k' n' t Hk Hc _ Ht IH]; simpl; [discriminate|].
  destruct (k =? k'); [intros [= <-]; auto | auto].
Qed.

Lemma wf_walk f ps : forall seen t, wf t -> wf (walk f seen ps t).
Proof.
  induction ps as [|p rest IH]; intros seen t Ht; simpl; auto.
  apply wf_set; auto. cbn [children]. apply IH.
  destruct (lookup p t) as [n|] eqn:E.
  - eapply lookup_wf; eauto.
  - constructor.
Qed.

Lemma wf_build files : wf (buildFileTree files).
Proof.
  unfold buildFileTree. generalize (wf_nil). generalize (@nil (string * Node)).
  induction files as [|f files IH]; intros t Ht; simpl; auto.
  apply IH. apply wf_walk; auto.
Qed.

Lemma node_paths_eq n : node_paths n = path (info n) :: tree_paths (children n).
Proof. destruct n as [i ch]. reflexivity. Qed.

Lemma resolve_cons k r t :
  resolve (k :: r) t =
  match lookup k t with
  | None => None
  | Some n => match r with [] => Some n | _ => resolve r (children n) end
  end.
Proof. reflexivity. Qed.

(** The flattened path set holds the path of every node a chain leads to,
    and nothing else. *)
Lemma tree_paths_resolve t : wf t ->
  forall p, In p (tree_paths t) <-> exists q n, resolve q t = Some n /\ path (info n) = p.
Proof.
  induction 1 as [|k n t Hk Hc IHc Ht IHt]; intros p.
  - simpl. split; [tauto|]. intros ([|k r] & n & H & _); discriminate.
  - change (tree_paths ((k, n) :: t)) with (node_paths n ++ tree_paths t).
    rewrite node_paths_eq, in_app_iff.
    cbn [In]. rewrite IHc, IHt. split.
    + intros [[Hp|(q & n' & Hq & Hp)]|(q & n' & Hq & Hp)].
      * exists [k], n. cbn. rewrite String.eqb_refl. auto.
      * exists (k :: q), n'. rewrite resolve_cons. cbn [lookup]. rewrite String.eqb_refl.
        destruct q; [discriminate|]. auto.
      * exists q, n'. split; auto. destruct q as [|k0 r]; [discriminate|].
        rewrite resolve_cons in *. cbn [lookup].
        destruct (String.eqb_spec k0 k) as [->|Hne]; auto.
        rewrite Hk in Hq. discriminate.
    + intros (q & n' & Hq & Hp). destruct q as [|k0 r]; [discriminate|].
      rewrite resolve_cons in Hq. cbn [lookup] in Hq.
      destruct (String.eqb_spec k0 k) as [->|Hne].
      * destruct r as [|k1 r].
        -- injection Hq as <-. auto.
        -- left; right. eauto.
      * right. exists (k0 :: r), n'. rewrite resolve_cons. auto.
Qed.

(** The paths of the rebuilt tree are the joined initial stretches of the
    segment chains of the listing. *)
Lemma tree_paths_build files p :
  In p (tree_paths (buildFileTree files)) <->
  exists f q, In f files /\ reaches q (parts (path f)) = true /\ p = JS.join "/" q.
Proof.
  rewrite tree_paths_resolve by apply wf_build. split.
  - intros (q & n & Hq & Hp).
    assert (Hi : info_at q (buildFileTree files) = Some (info n))
      by (apply info_at_resolve; eauto).
    rewrite info_at_build in Hi.
    destruct (creator q files) as [f|] eqn:E; [|discriminate].
    apply creator_In in E. destruct E as [Hin Hr].
    exists f, q. repeat split; auto. cbn in Hi. injection Hi as Hi.
    rewrite <- Hp, <- Hi. reflexivity.
  - intros (f & q & Hin & Hr & ->).
    destruct (creator_exists q files f Hin Hr) as [g Hg].
    assert (Hi : info_at q (buildFileTree files) = Some (created_by q g))
      by (rewrite info_at_build, Hg; reflexivity).
    apply info_at_resolve in Hi. destruct Hi as (n & Hn & Hi).
    exists q, n. split; auto. rewrite Hi. reflexivity.
Qed.

End FileTree.

(** ** The file tree as the code builds it *)

Section PlainTree.
Import Files.

Lemma clean_lookup_none k t :
  PlainObject.clean t -> PlainObject.inherits k = true -> lookup k t = None.
Proof.
  induction 1 as [|k' n t Hk _ _ _ IH]; intros Hi; [reflexivity|].
  cbn. destruct (String.eqb_spec k k') as [->|_]; [congruence|auto].
Qed.

Lemma clean_lookup k t n :
  PlainObject.clean t -> lookup k t = Some n -> PlainObject.clean (children n).
Proof.
  induction 1 as [|k' n' t Hk Hc _ _ IH]; cbn; [discriminate|].
  destruct (k =? k'); [intros [= <-]; exact Hc|exact IH].
Qed.

Lemma clean_set k n t :
  PlainObject.clean t -> PlainObject.inherits k = false ->
  PlainObject.clean (children n) -> PlainObject.clean (set k n t).
Proof.
  intros Ht Hk Hn. induction Ht as [|k' n' t Hk' Hc _ Ht IH]; cbn.
  - constructor; auto. constructor.
  - destruct (k =? k'); constructor; auto.
Qed.

Lemma clean_walk f ps : forall seen t,
  PlainObject.clean t -> PlainObject.plain ps = true ->
  PlainObject.clean (walk f seen ps t).
Proof.
  induction ps as [|p rest IH]; intros seen t Ht Hp; cbn; [exact Ht|].
  cbn in Hp. apply andb_true_iff in Hp. destruct Hp as [Hp Hrest].
  apply negb_true_iff in Hp.
  apply clean_set; auto. cbn [children]. apply IH; auto.
  destruct (lookup p t) as [n|] eqn:E.
  - eapply clean_lookup; eauto.
  - constructor.
Qed.

Lemma plain_trodden ps : PlainObject.plain (PlainObject.trodden ps) = true.
Proof.
  induction ps as [|k r IH]; cbn [PlainObject.trodden]; [reflexivity|].
  destruct (PlainObject.inherits k) eqn:E; [reflexivity|].
  change (negb (PlainObject.inherits k) && PlainObject.plain (PlainObject.trodden r) = true).
  rewrite E, IH. reflexivity.
Qed.

Lemma trodden_plain ps : PlainObject.plain ps = true -> PlainObject.trodden ps = ps.
Proof.
  induction ps as [|k r IH]; cbn; [reflexivity|].
  intros H. apply andb_true_iff in H. destruct H as [Hk Hr].
  apply negb_true_iff in Hk. rewrite Hk, IH; auto.
Qed.

Lemma crosses_plain ps : PlainObject.plain ps = true -> PlainObject.crosses ps = false.
Proof.
  induction ps as [|k r IH]; cbn; [reflexivity|].
  intros H. apply andb_true_iff in H. destruct H as [Hk Hr].
  apply negb_true_iff in Hk. rewrite Hk. auto.
Qed.

Lemma agrees_stopped f : PlainObject.agrees (PlainObject.stopped f) f (parts (path f)).
Proof.
  unfold PlainObject.agrees, PlainObject.stopped.
  destruct (PlainObject.plain (parts (path f))); cbn; auto.
Qed.

(** On a tree without inherited keys of its own the walk of the code is the
    walk over own keys along the segments before the first inherited one,
    unless it goes on after that one. *)
Lemma walk_own_keys f g ps : forall seen t,
  PlainObject.clean t -> PlainObject.agrees g f ps ->
  PlainObject.walk f seen ps t =
  if PlainObject.crosses ps then None
  else Some (walk g seen (PlainObject.trodden ps) t).
Proof.
  induction ps as [|k r IH]; intros seen t Ht Hg; [reflexivity|].
  cbn [PlainObject.walk PlainObject.crosses PlainObject.trodden].
  unfold PlainObject.get.
  destruct (PlainObject.inherits k) eqn:Ek.
  - rewrite (clean_lookup_none k t Ht Ek). destruct r; reflexivity.
  - assert (Hg' : PlainObject.agrees g f r).
    { unfold PlainObject.agrees in *. cbn [PlainObject.plain forallb] in Hg. rewrite Ek in Hg. exact Hg. }
    cbn [walk].
    destruct (lookup k t) as [n|] eqn:El.
    + rewrite (IH (seen ++ [k]) (children n) (clean_lookup k t n Ht El) Hg').
      destruct (PlainObject.crosses r); reflexivity.
    + cbn [children info].
      rewrite (IH (seen ++ [k]) [] PlainObject.clean_nil Hg').
      destruct (PlainObject.crosses r) eqn:Ec; [reflexivity|].
      cbn [option_map children info]. do 3 f_equal.
      destruct Hg as [Hm Hg]. cbn [PlainObject.plain forallb] in Hg. rewrite Ek in Hg.
      cbn [negb andb] in Hg.
      destruct r as [|k' r'].
      * cbn in Hg |- *. destruct Hg as [-> ->]. rewrite Hm. reflexivity.
      * cbn [PlainObject.trodden]. cbn [PlainObject.plain forallb] in Hg.
        destruct (PlainObject.inherits k') eqn:Ek'.
        -- cbn in Hg. destruct Hg as [-> ->]. rewrite Hm. reflexivity.
        -- rewrite Hm. reflexivity.
Qed.

Lemma fold_thrown files : fold_left PlainObject.walk_entry files None = None.
Proof. induction files; cbn; auto. Qed.

Lemma fold_own_keys files : forall t,
  PlainObject.clean t ->
  fold_left PlainObject.walk_entry files (Some t) =
  if existsb (fun f => PlainObject.crosses (parts (path f))) files then None
  else Some (PlainObject.trodden_tree files t).
Proof.
  induction files as [|f files IH]; intros t Ht; [reflexivity|].
  cbn [fold_left PlainObject.walk_entry existsb PlainObject.trodden_tree].
  rewrite (walk_own_keys f (PlainObject.stopped f) _ [] t Ht (agrees_stopped f)).
  destruct (PlainObject.crosses (parts (path f))); cbn [orb].
  - apply fold_thrown.
  - apply IH. apply clean_walk; [exact Ht|apply plain_trodden].
Qed.

Lemma buildFileTree_own_keys files :
  PlainObject.buildFileTree files =
  if existsb (fun f => PlainObject.crosses (parts (path f))) files then None
  else Some (PlainObject.trodden_tree files []).
Proof. apply (fold_own_keys files []). constructor. Qed.

Lemma prefixb_trodden q : forall ps,
  prefixb q (PlainObject.trodden ps) = prefixb q ps && PlainObject.plain q.
Proof.
  induction q as [|k q IH]; intros ps; [reflexivity|].
  destruct ps as [|p ps]; [reflexivity|].
  cbn [PlainObject.trodden prefixb PlainObject.plain forallb].
  destruct (PlainObject.inherits p) eqn:Ep.
  - cbn [prefixb]. destruct (String.eqb_spec k p) as [->|_]; [|reflexivity].
    rewrite Ep. cbn. now rewrite andb_false_r.
  - cbn [prefixb]. rewrite IH.
    destruct (String.eqb_spec k p) as [->|_]; [|reflexivity].
    rewrite Ep. cbn. reflexivity.
Qed.

Lemma reaches_trodden q ps :
  reaches q (PlainObject.trodden ps) = reaches q ps && PlainObject.plain q.
Proof. destruct q; [reflexivity|]. apply prefixb_trodden. Qed.

Lemma prefixb_length q : forall ps, prefixb q ps = true -> (List.length q <= List.length ps)%nat.
Proof.
  induction q as [|k q IH]; intros [|p ps]; cbn; try lia; try discriminate.
  intros H. apply andb_true_iff in H. destruct H as [_ H]. apply IH in H. lia.
Qed.

Lemma trodden_length ps :
  PlainObject.plain ps = false -> (List.length (PlainObject.trodden ps) < List.length ps)%nat.
Proof.
  induction ps as [|k r IH]; cbn; [discriminate|].
  destruct (PlainObject.inherits k); cbn; [lia|]. intros H. apply IH in H. lia.
Qed.

Lemma created_stopped q f :
  reaches q (PlainObject.trodden (parts (path f))) = true ->
  created (PlainObject.stopped f) [] q (PlainObject.trodden (parts (path f))) = created_by q f.
Proof.
  intros H. unfold created_by, created, PlainObject.stopped.
  destruct (PlainObject.plain (parts (path f))) eqn:Ep.
  - rewrite (trodden_plain _ Ep). reflexivity.
  - cbn [type size modified].
    assert (Hl : (List.length q <= List.length (PlainObject.trodden (parts (path f))))%nat).
    { destruct q; [discriminate|]. apply prefixb_length. exact H. }
    pose proof (trodden_length _ Ep) as Hlt.
    replace (List.length q =? List.length (parts (path f)))%nat with false
      by (symmetry; apply Nat.eqb_neq; lia).
    destruct (List.length q =? _)%nat; reflexivity.
Qed.

Lemma info_at_trodden q files : forall t,
  info_at q (PlainObject.trodden_tree files t) =
  match info_at q t with
  | Some i => Some i
  | None => if PlainObject.plain q then option_map (created_by q) (creator q files) else None
  end.
Proof.
  unfold PlainObject.trodden_tree.
  induction files as [|f files IH]; intros t; cbn [fold_left].
  - destruct (info_at q t); [reflexivity|]. destruct (PlainObject.plain q); reflexivity.
  - rewrite IH, info_at_walk.
    destruct (info_at q t); [reflexivity|].
    destruct (reaches q (PlainObject.trodden (parts (path f)))) eqn:Er.
    + rewrite (created_stopped q f Er). rewrite reaches_trodden in Er.
      apply andb_true_iff in Er. destruct Er as [Er Ep].
      rewrite Ep. unfold creator. cbn [find]. rewrite Er. reflexivity.
    + rewrite reaches_trodden in Er.
      destruct (PlainObject.plain q); [|reflexivity].
      rewrite andb_true_r in Er. unfold creator. cbn [find]. rewrite Er. reflexivity.
Qed.

(** The node at a chain of segments, in the tree the code builds. *)
Lemma info_at_buildFileTree files t q :
  PlainObject.buildFileTree files = Some t ->
  info_at q t =
  if PlainObject.plain q then option_map (created_by q) (creator q files) else None.
Proof.
  rewrite buildFileTree_own_keys.
  destruct (existsb _ files); [discriminate|]. intros [= <-].
  rewrite info_at_trodden. destruct q; reflexivity.
Qed.

Lemma buildFileTree_throws files :
  PlainObject.buildFileTree files = None <->
  exists f, In f files /\ PlainObject.crosses (parts (path f)) = true.
Proof.
  rewrite buildFileTree_own_keys, <- existsb_exists.
  destruct (existsb _ files); split; auto; discriminate.
Qed.

Lemma wf_buildFileTree files t : PlainObject.buildFileTree files = Some t -> wf t.
Proof.
  rewrite buildFileTree_own_keys.
  destruct (existsb _ files); [discriminate|]. intros [= <-].
  unfold PlainObject.trodden_tree. generalize wf_nil. generalize (@nil (string * Node)).
  induction files as [|f files IH]; intros t Ht; cbn; auto.
  apply IH. apply wf_walk; auto.
Qed.

Lemma clean_buildFileTree files t :
  PlainObject.buildFileTree files = Some t -> PlainObject.clean t.
Proof.
  rewrite buildFileTree_own_keys.
  destruct (existsb _ files); [discriminate|]. intros [= <-].
  unfold PlainObject.trodden_tree. generalize PlainObject.clean_nil. generalize (@nil (string * Node)).
  induction files as [|f files IH]; intros t Ht; cbn; auto.
  apply IH. apply clean_walk; [exact Ht|apply plain_trodden].
Qed.

(** A listing without inherited names is built as [Files.buildFileTree]
    builds it. *)
Lemma buildFileTree_plain files :
  PlainObject.plain_listing files -> PlainObject.buildFileTree files = Some (buildFileTree files).
Proof.
  intros H. rewrite buildFileTree_own_keys.
  replace (existsb (fun f => PlainObject.crosses (parts (path f))) files) with false.
  - f_equal. unfold PlainObject.trodden_tree, buildFileTree. generalize (@nil (string * Node)).
    induction files as [|f files IH]; intros t; [reflexivity|]. cbn [fold_left].
    assert (Hs : PlainObject.stopped f = f)
      by (unfold PlainObject.stopped; rewrite (H f (or_introl eq_refl)); reflexivity).
    rewrite Hs, (trodden_plain _ (H f (or_introl eq_refl))).
    apply IH. intros g Hg. apply H. right. exact Hg.
  - symmetry. apply not_true_is_false. intros E. apply existsb_exists in E.
    destruct E as (f & Hf & Hc). rewrite (crosses_plain _ (H f Hf)) in Hc. discriminate.
Qed.

Lemma prefixb_plain q : forall ps,
  prefixb q ps = true -> PlainObject.plain ps = true -> PlainObject.plain q = true.
Proof.
  induction q as [|k q IH]; intros [|p ps]; cbn; auto; try discriminate.
  intros H Hp. apply andb_true_iff in H. destruct H as [Hk H].
  apply andb_true_iff in Hp. destruct Hp as [Hp Hps].
  apply String.eqb_eq in Hk. subst p. rewrite Hp. cbn. eauto.
Qed.

Lemma tree_paths_buildFileTree files t p :
  PlainObject.buildFileTree files = Some t ->
  (In p (tree_paths t) <->
   exists f q, In f files /\ reaches q (parts (path f)) = true
               /\ PlainObject.plain q = true /\ p = JS.join "/" q).
Proof.
  intros Hb. rewrite (tree_paths_resolve t (wf_buildFileTree files t Hb)). split.
  - intros (q & n & Hq & Hp).
    assert (Hi : info_at q t = Some (info n)) by (apply info_at_resolve; eauto).
    rewrite (info_at_buildFileTree files t q Hb) in Hi.
    destruct (PlainObject.plain q) eqn:Eq; [|discriminate].
    destruct (creator q files) as [f|] eqn:E; [|discriminate].
    apply creator_In in E. destruct E as [Hin Hr].
    exists f, q. repeat split; auto. cbn in Hi. injection Hi as Hi.
    rewrite <- Hp, <- Hi. reflexivity.
  - intros (f & q & Hin & Hr & Hpl & ->).
    destruct (creator_exists q files f Hin Hr) as [g Hg].
    assert (Hi : info_at q t = Some (created_by q g))
      by (rewrite (info_at_buildFileTree files t q Hb), Hpl, Hg; reflexivity).
    apply info_at_resolve in Hi. destruct Hi as (n & Hn & Hi).
    exists q, n. split; auto. rewrite Hi. reflexivity.
Qed.

Lemma creator_app q files later f :
  creator q files = Some f -> creator q (files ++ later) = Some f.
Proof.
  unfold creator. induction files as [|g files IH]; cbn; [discriminate|].
  destruct (reaches q (parts (path g))); auto.
Qed.

End PlainTree.

Section TreeClaims.
Import Files.

(** C2.  [buildFileTree] splits each path of the listing on ["/"], drops the
    empty segments and walks the chain of segments, making the nodes that are
    missing.  It returns a tree unless the path of an entry goes on after a
    segment that every object inherits ([constructor], [toString], ...): then
    it throws.  In the tree it returns, every initial stretch of every chain
    leads to a node, as long as the stretch has no inherited segment, for
    which no node is made.  Every node of the tree stands on the chain of an
    entry of the listing, is named by its last segment and has the joined
    chain as path; it takes its [modified] from that entry; when it ends the
    chain it takes the entry's kind and size, and when it stands before the
    end it is a directory without a size.  A listing without inherited
    segments is built as over own keys.  The single leaf [a/b/c.txt] yields
    the directories [a] and [a/b]; the listing [a/], [a/b.txt], [c.txt]
    yields the root children [a] and [c.txt], and [a] has the child [b.txt].
    A file named [constructor] yields no node, and a file below a directory
    named [toString] makes [buildFileTree] throw. *)
Theorem buildFileTree_walks_segment_chains (files : list ServerFile) :
  (PlainObject.buildFileTree files = None <->
     exists f, In f files /\ PlainObject.crosses (parts (path f)) = true)
  /\
  (forall t, PlainObject.buildFileTree files = Some t ->
     (forall f q, In f files -> reaches q (parts (path f)) = true ->
        PlainObject.plain q = true -> exists n, resolve q t = Some n)
     /\
     (forall q n, resolve q t = Some n ->
        PlainObject.plain q = true /\
        exists f, In f files /\ reaches q (parts (path f)) = true /\
          name (info n) = last q "" /\
          path (info n) = JS.join "/" q /\
          modified (info n) = modified f /\
          if (List.length q =? List.length (parts (path f)))%nat
          then type (info n) = type f /\ size (info n) = size f
          else type (info n) = directory /\ size (info n) = None))
  /\
  (PlainObject.plain_listing files ->
     PlainObject.buildFileTree files = Some (buildFileTree files))
  /\
  parts "/a//b/c.txt/" = ["a"; "b"; "c.txt"]
  /\
  (forall nm ty sz m,
     PlainObject.buildFileTree [mkFile "a/b/c.txt" nm ty sz m]
     = Some [("a", mkNode (mkFile "a" "a" directory None m)
               [("b", mkNode (mkFile "a/b" "b" directory None m)
                  [("c.txt", mkNode (mkFile "a/b/c.txt" "c.txt" ty sz m) [])])])])
  /\
  (forall m1 m2 m3 s2 s3,
     PlainObject.buildFileTree [mkFile "a/" "a" directory None m1;
                                mkFile "a/b.txt" "b.txt" file s2 m2;
                                mkFile "c.txt" "c.txt" file s3 m3]
     = Some [("a", mkNode (mkFile "a" "a" directory None m1)
               [("b.txt", mkNode (mkFile "a/b.txt" "b.txt" file s2 m2) [])]);
             ("c.txt", mkNode (mkFile "c.txt" "c.txt" file s3 m3) [])])
  /\
  (forall nm ty sz m,
     PlainObject.buildFileTree [mkFile "constructor" nm ty sz m] = Some []
     /\ PlainObject.buildFileTree [mkFile "logs/toString" nm ty sz m]
        = Some [("logs", mkNode (mkFile "logs" "logs" directory None m) [])]
     /\ PlainObject.buildFileTree [mkFile "toString/x.txt" nm ty sz m] = None).
Proof.
  split; [apply buildFileTree_throws|].
  split; [|split; [apply buildFileTree_plain|]].
  - intros t Hb. split.
    + intros f q Hin Hr Hp.
      destruct (creator_exists q files f Hin Hr) as [g Hg].
      pose proof (info_at_buildFileTree files t q Hb) as Hi. rewrite Hp, Hg in Hi.
      apply info_at_resolve in Hi. destruct Hi as (n & Hn & _). eauto.
    + intros q n Hq.
      assert (Hi : info_at q t = Some (info n)) by (apply info_at_resolve; eauto).
      rewrite (info_at_buildFileTree files t q Hb) in Hi.
      destruct (PlainObject.plain q); [|discriminate]. split; [reflexivity|].
      destruct (creator q files) as [f|] eqn:E; [|discriminate].
      apply creator_In in E. destruct E as [Hin Hr].
      exists f. cbn in Hi. injection Hi as Hi. rewrite <- Hi.
      unfold created_by, created. cbn [name path type size modified app].
      repeat (split; [solve [auto]|]).
      destruct (List.length q =? List.length (parts (path f)))%nat; auto.
  - split; [reflexivity|]. split; [intros; reflexivity|]. split; [intros; reflexivity|].
    intros nm ty sz m. repeat split.
Qed.

(** C10.  In the tree [buildFileTree] returns, the node at a chain of
    segments has the fields given by the first entry of the listing whose
    walk passes through that chain: the entry's [modified], and its kind and
    size when the chain is the whole path, a directory without size
    otherwise.  Entries that come later never change them: neither an entry
    with the same path, nor a directory entry that arrives after the walk of
    a descendant made the directory. *)
Theorem first_entry_fixes_node_fields (files : list ServerFile) (q : list string) :
  (forall t i,
     PlainObject.buildFileTree files = Some t -> info_at q t = Some i ->
     (exists f, creator q files = Some f /\ i = created_by q f)
     /\ forall later t',
          PlainObject.buildFileTree (files ++ later) = Some t' -> info_at q t' = Some i)
  /\
  (forall t,
     PlainObject.buildFileTree files = Some t -> PlainObject.plain q = true ->
     info_at q t = option_map (created_by q) (creator q files))
  /\
  (forall sz m,
     option_map (info_at ["a"])
       (PlainObject.buildFileTree [mkFile "a/b.txt" "b.txt" file (Some 3%Z) "t1";
                                   mkFile "a" "a" directory sz m])
       = Some (Some (mkFile "a" "a" directory None "t1")))
  /\
  (forall ty sz m,
     option_map (info_at ["c.txt"])
       (PlainObject.buildFileTree [mkFile "c.txt" "c.txt" file (Some 5%Z) "t1";
                                   mkFile "c.txt" "c.txt" ty sz m])
       = Some (Some (mkFile "c.txt" "c.txt" file (Some 5%Z) "t1"))).
Proof.
  split; [|split; [|split; reflexivity]].
  - intros t i Hb Hi.
    rewrite (info_at_buildFileTree files t q Hb) in Hi.
    destruct (PlainObject.plain q) eqn:Hp; [|discriminate].
    destruct (creator q files) as [f|] eqn:E; [|discriminate].
    cbn in Hi. injection Hi as <-. split; [eauto|].
    intros later t' Hb'. rewrite (info_at_buildFileTree _ t' q Hb'), Hp.
    rewrite (creator_app q files later f E). reflexivity.
  - intros t Hb Hp. rewrite (info_at_buildFileTree files t q Hb), Hp. reflexivity.
Qed.

End TreeClaims.

(** ** The dispatcher and the file listing *)

Section FileMessages.
Import Page.

Lemma last_cons {A} (a : A) l d : last (a :: l) d = last l a.
Proof.
  revert a d. induction l as [|b l IH]; intros a d; [reflexivity|].
  change (last (a :: b :: l) d) with (last (b :: l) d).
  rewrite (IH b d), (IH b a). reflexivity.
Qed.

Lemma files_deliver_updates w updates : forall st,
  files (deliver w (map update_msg updates) st) = last (map fst updates) (files st).
Proof.
  induction updates as [|u updates IH]; intros st; [reflexivity|].
  cbn [map]. rewrite last_cons.
  change (deliver w (update_msg u :: map update_msg updates) st)
    with (deliver w (map update_msg updates) (onmessage w (Some (update_msg u)) st)).
  rewrite IH. reflexivity.
Qed.

(** C1, as the code has it.  After one [file_init] and any [file_update]
    messages the page holds the listing of the last message received, whatever
    the change lists say; the flattened path set is the one of the tree
    rebuilt from that listing alone: when no segment of the listing is a key
    that objects inherit, the joined initial stretches of the segment chains
    of its entries. *)
Theorem file_messages_replace_listing
  (w : nat) (st : State) (init : list ServerFile)
  (updates : list (list ServerFile * list FileChangeEvent)) :
  let st' := deliver w (file_init init :: map update_msg updates) st in
  let latest := last (map fst updates) init in
  files st' = latest
  /\ (PlainObject.plain_listing latest ->
      exists paths,
        PlainObject.flattened (files st') = Some paths
        /\ forall p, In p paths <->
             exists f q, In f latest /\ Files.reaches q (Files.parts (path f)) = true
                         /\ p = JS.join "/" q).
Proof.
  cbv zeta.
  assert (H : files (deliver w (file_init init :: map update_msg updates) st)
              = last (map fst updates) init).
  { change (deliver w (file_init init :: map update_msg updates) st)
      with (deliver w (map update_msg updates) (setFiles init st)).
    rewrite files_deliver_updates. reflexivity. }
  rewrite H. split; [reflexivity|]. intros Hpl.
  pose proof (buildFileTree_plain _ Hpl) as Hb.
  exists (Files.tree_paths (Files.buildFileTree (last (map fst updates) init))).
  unfold PlainObject.flattened. rewrite Hb. split; [reflexivity|].
  intros p. rewrite (tree_paths_buildFileTree _ _ p Hb). split.
  - intros (f & q & Hin & Hr & _ & Hp). eauto.
  - intros (f & q & Hin & Hr & Hp). exists f, q. repeat split; auto.
    destruct q; [discriminate|]. eapply prefixb_plain; [exact Hr|apply Hpl; exact Hin].
Qed.

(** C1, as the claim states it, fails: a [file_update] whose change list adds
    [d.txt] and deletes [c.txt] leaves the path set at the listing it
    carries. *)
Lemma file_update_changes_are_not_applied :
  let init := [mkFile "c.txt" "c.txt" file (Some 5%Z) "t0"] in
  let updates := [(init, [mkChange added "d.txt"; mkChange deleted "c.txt"])] in
  let st' := deliver 0 (file_init init :: map update_msg updates) initial in
  expected_paths init updates = ["d.txt"]
  /\ PlainObject.flattened (files st') = Some ["c.txt"].
Proof. split; reflexivity. Qed.

End FileMessages.

Section Dispatcher.
Import Page.

(** X3.  The dispatcher keeps the console in arrival order, answers a ping
    on an open socket with exactly one pong on that socket, and drops a frame
    it cannot decode. *)
Theorem dispatcher_console_ping_and_malformed (w : nat) (st : State) :
  (forall records,
     consoleOutput (deliver w (map console records) st) = consoleOutput st ++ records)
  /\ (readyState w st = OPEN ->
        sent (onmessage w (Some ping) st) = (w, pong) :: sent st
        /\ consoleOutput (onmessage w (Some ping) st) = consoleOutput st
        /\ files (onmessage w (Some ping) st) = files st
        /\ actionInProgress (onmessage w (Some ping) st) = actionInProgress st)
  /\ onmessage w None st = st.
Proof.
  split; [|split].
  - intros records. revert st. induction records as [|r records IH]; intros st.
    + cbn. now rewrite app_nil_r.
    + change (deliver w (map console (r :: records)) st)
        with (deliver w (map console records) (setConsoleOutput (consoleOutput st ++ [r]) st)).
      rewrite IH. cbn. rewrite <- app_assoc. reflexivity.
  - intros Ho. cbn. unfold ws_send. rewrite Ho. cbn. auto.
  - reflexivity.
Qed.

End Dispatcher.

(** ** Sorting with a comparator *)

Section StableSort.
Variable A : Type.
Variable cmp : A -> A -> Z.
Hypothesis cmp_total : forall a b, (0 < cmp a b -> cmp b a <= 0)%Z.
Hypothesis cmp_trans : forall a b c, (cmp a b <= 0 -> cmp b c <= 0 -> cmp a c <= 0)%Z.

Let le (a b : A) : Prop := (cmp a b <= 0)%Z.

Lemma insert_perm x l : Permutation (x :: l) (JS.insert cmp x l).
Proof.
  induction l as [|y l IH]; simpl; auto.
  destruct (cmp x y <=? 0)%Z; auto.
  rewrite perm_swap. auto.
Qed.

Lemma sort_perm l : Permutation l (JS.sort cmp l).
Proof.
  induction l as [|x l IH]; simpl; auto.
  rewrite <- insert_perm. auto.
Qed.

Lemma insert_sorted x l : StronglySorted le l -> StronglySorted le (JS.insert cmp x l).
Proof.
  induction 1 as [|y l Hl IH Hy]; simpl.
  - repeat constructor.
  - destruct (Z.leb_spec (cmp x y) 0) as [Hxy|Hxy].
    + constructor; [constructor; auto|].
      constructor; auto.
      eapply Forall_impl; [|exact Hy]. intros z Hz. eapply cmp_trans; eauto.
    + constructor; auto.
      eapply Permutation_Forall; [apply insert_perm|].
      constructor; auto. apply cmp_total. exact Hxy.
Qed.

Lemma sort_sorted l : StronglySorted le (JS.sort cmp l).
Proof.
  induction l; simpl; [constructor | apply insert_sorted; auto].
Qed.




End StableSort.


(** ** The order of code units is a collation *)

Lemma string_compare_trans a : forall b c,
  String.compare a b <> Gt -> String.compare b c <> Gt -> String.compare a c <> Gt.
Proof.
  induction a as [|x a IH]; intros [|y b] [|z c]; simpl; try congruence.
  unfold Ascii.compare.
  destruct (N.compare_spec (N_of_ascii x) (N_of_ascii y)) as [Exy|Lxy|Gxy];
  destruct (N.compare_spec (N_of_ascii y) (N_of_ascii z)) as [Eyz|Lyz|Gyz];
  destruct (N.compare_spec (N_of_ascii x) (N_of_ascii z)) as [Exz|Lxz|Gxz];
  try congruence; try lia; try (apply IH).
Qed.

Lemma ascii_order : LocaleOrder ascii_runtime.
Proof.
  split; cbn; unfold compare_code_units.
  - intros a b. rewrite (String.compare_antisym b a).
    destruct (String.compare a b); cbn; lia.
  - intros a b c Hab Hbc.
    pose proof (string_compare_trans a b c) as T.
    destruct (String.compare a b); destruct (String.compare b c);
      destruct (String.compare a c); try lia;
      exfalso; apply T; congruence.
Qed.

(** ** The directory listing *)

Section Listing.
Context {R : JSRuntime} (L : LocaleOrder R).
Import Explorer.

Lemma compareFiles_total a b : (0 < compareFiles a b -> compareFiles b a <= 0)%Z.
Proof.
  unfold compareFiles.
  destruct (type a), (type b); cbn; try lia; apply (locale_total R L).
Qed.

Lemma compareFiles_trans a b c :
  (compareFiles a b <= 0 -> compareFiles b c <= 0 -> compareFiles a c <= 0)%Z.
Proof.
  unfold compareFiles.
  destruct (type a), (type b), (type c); cbn; try lia; apply (locale_trans R L).
Qed.

Lemma compareFiles_order a b :
  (compareFiles a b <= 0)%Z ->
  (type b = directory -> type a = directory) /\
  (type a = type b -> (localeCompare (name a) (name b) <= 0)%Z).
Proof.
  unfold compareFiles.
  destruct (type a), (type b); cbn; intros H; split; auto; try lia; discriminate.
Qed.


End Listing.

(** ** The filter and the collation *)

Section Caseless.






Lemma conforming_order {R : JSRuntime} (C : Conforming R) : LocaleOrder R.
Proof.
  split.
  - intros a b H. apply (collation_sign R C) in H. lia.
  - apply (collation_trans R C).
Qed.





End Caseless.

Section Unique.
Variable A : Type.
Variable le : A -> A -> Prop.

(** Two ordered arrangements of the same entries, no two of which tie, are
    the same list. *)
Lemma sorted_unique (l1 : list A) : forall l2,
  (forall a b, In a l1 -> In b l1 -> le a b -> le b a -> a = b) ->
  StronglySorted le l1 -> StronglySorted le l2 -> Permutation l1 l2 -> l1 = l2.
Proof.
  induction l1 as [|x l1 IH]; intros l2 Hanti H1 H2 Hp.
  - apply Permutation_nil in Hp. congruence.
  - destruct l2 as [|y l2]; [symmetry in Hp; apply Permutation_nil in Hp; discriminate|].
    inversion H1 as [|? ? H1' Hx]; subst. inversion H2 as [|? ? H2' Hy]; subst.
    rewrite Forall_forall in Hx, Hy.
    assert (Hy1 : In y (x :: l1))
      by (eapply Permutation_in; [symmetry; exact Hp|left; reflexivity]).
    assert (Hx2 : In x (y :: l2))
      by (eapply Permutation_in; [exact Hp|left; reflexivity]).
    assert (E : x = y).
    { destruct Hy1 as [E|Hy1]; [exact E|]. destruct Hx2 as [E|Hx2]; [congruence|].
      apply Hanti; [left; reflexivity|right; exact Hy1|apply Hx; exact Hy1|apply Hy; exact Hx2]. }
    subst y. f_equal. apply IH; auto.
    + intros a b Ha Hb. apply Hanti; right; assumption.
    + eapply Permutation_cons_inv. exact Hp.
Qed.

End Unique.


Section ListingClaim.
Import Explorer.

Lemma filter_perm {A} (keep : A -> bool) l l' :
  Permutation l l' -> Permutation (filter keep l) (filter keep l').
Proof.
  induction 1; simpl.
  - constructor.
  - destruct (keep x); auto.
  - destruct (keep x), (keep y); auto. constructor.
  - etransitivity; eauto.
Qed.

(** The listing of a directory no two entries of which tie does not depend
    on the order in which the directory holds them. *)
Lemma listing_of_permutation {R : JSRuntime} (C : Conforming R) flt entries entries' :
  Permutation entries entries' ->
  (forall a b, In a entries -> In b entries -> type a = type b ->
               localeCompare (name a) (name b) = 0%Z -> a = b) ->
  listing flt entries' = listing flt entries.
Proof.
  unfold listing.
  pose proof (conforming_order C) as L.
  pose proof (compareFiles_total L) as Tot.
  pose proof (compareFiles_trans L) as Tr.
  assert (Hperm : forall l, Permutation
            (JS.sort compareFiles (filter (matches flt) l))
            (filter (matches flt) l))
    by (intros l; symmetry; apply sort_perm).
  intros Hp Hties. symmetry.
  apply (sorted_unique _ (fun a b => (compareFiles a b <= 0)%Z)).
  - intros a b Ha Hb Hab Hba.
    assert (Ha' : In a entries).
    { apply (Permutation_in _ (Hperm entries)) in Ha. apply filter_In in Ha. tauto. }
    assert (Hb' : In b entries).
    { apply (Permutation_in _ (Hperm entries)) in Hb. apply filter_In in Hb. tauto. }
    revert Hab Hba. unfold compareFiles.
    destruct (FileType_eqb (type a) (type b)) eqn:Et.
    + assert (Et' : type a = type b) by (destruct (type a), (type b); try discriminate; reflexivity).
      rewrite Et'. replace (FileType_eqb (type b) (type b)) with true
        by (destruct (type b); reflexivity).
      cbn. intros Hab Hba. apply Hties; auto.
      destruct (Z.eq_dec (localeCompare (name a) (name b)) 0) as [|Hn]; [assumption|].
      assert (Hlt : (localeCompare (name a) (name b) < 0)%Z) by lia.
      apply (collation_sign R C) in Hlt. lia.
    + assert (Et' : FileType_eqb (type b) (type a) = false)
        by (destruct (type a), (type b); try discriminate; reflexivity).
      rewrite Et'. cbn. destruct (type a), (type b); cbn; try discriminate; lia.
  - apply sort_sorted; assumption.
  - apply sort_sorted; assumption.
  - rewrite !Hperm. apply filter_perm. exact Hp.
Qed.



End ListingClaim.

(** ** The console export *)

Section ConsoleExport.
Import Console.

Lemma has_app c (a b : string) : has c (a ++ b) = has c a || has c b.
Proof. induction a as [|x a IH]; simpl; auto. rewrite IH. apply orb_assoc. Qed.

Lemma until_app c a rest :
  has c a = false -> until c (a ++ String c rest) = Some (a, rest).
Proof.
  induction a as [|x a IH]; simpl.
  - now rewrite Ascii.eqb_refl.
  - intros H. apply orb_false_iff in H. destruct H as [Hx Ha].
    rewrite Hx, IH by assumption. reflexivity.
Qed.

Lemma split_single sep a : has sep a = false -> JS.split sep a = [a].
Proof.
  induction a as [|x a IH]; simpl; auto.
  intros H. apply orb_false_iff in H. destruct H as [Hx Ha].
  rewrite Hx, IH by assumption. reflexivity.
Qed.

Lemma split_app sep a rest :
  has sep a = false -> JS.split sep (a ++ String sep rest) = a :: JS.split sep rest.
Proof.
  induction a as [|x a IH]; simpl.
  - now rewrite Ascii.eqb_refl.
  - intros H. apply orb_false_iff in H. destruct H as [Hx Ha].
    rewrite Hx, IH by assumption. reflexivity.
Qed.

(** Splitting undoes joining when no joined string holds the separator. *)
Lemma split_join sep l :
  l <> [] -> Forall (fun s => has sep s = false) l ->
  JS.split sep (JS.join (String sep "") l) = l.
Proof.
  intros Hne Hall. induction Hall as [|a l Ha Hl IH]; [congruence|].
  destruct l as [|b l].
  - simpl. apply split_single. assumption.
  - change (JS.join (String sep "") (a :: b :: l))
      with (a ++ String sep "" ++ JS.join (String sep "") (b :: l))%string.
    cbn [String.append]. rewrite split_app by assumption.
    rewrite IH by congruence. reflexivity.
Qed.

Context {R : JSRuntime}.

Lemma parse_line_line msg :
  has "]" (JS.show (timestamp msg)) = false ->
  has "]" (toUpperCase (msg_type msg)) = false ->
  parse_line (line msg) = Some (shown msg).
Proof.
  intros Hts Hty. unfold parse_line, line. cbn [strip String.append].
  rewrite Ascii.eqb_refl.
  rewrite (until_app "]" _ _ Hts). cbn [strip]. rewrite !Ascii.eqb_refl.
  rewrite (until_app "]" _ _ Hty). cbn [strip]. rewrite !Ascii.eqb_refl.
  reflexivity.
Qed.

Lemma line_one_line msg : readable_back msg -> has nl (line msg) = false.
Proof.
  unfold readable_back, shown, line. intros (_ & H1 & _ & H2 & H3).
  rewrite !has_app, H1, H2, H3. reflexivity.
Qed.

End ConsoleExport.

(** C4, as the code has it.  The export writes each record as
    [[timestamp] [TYPE] text], the type in upper case, and joins the records
    with line breaks.  For a console that is not empty and whose records show
    no line break, and no closing bracket in the timestamp and the upper-cased
    type, the transcript has one line per record, and reading each line by the
    pattern gives back the timestamp, the upper-cased type and the text of its
    record. *)
Theorem export_reads_back_upper_cased
  (R : JSRuntime) (consoleOutput : list ConsoleMessage) :
  consoleOutput <> [] ->
  Forall Console.readable_back consoleOutput ->
  (forall msg,
     Console.line msg =
     ("[" ++ JS.show (timestamp msg) ++ "] [" ++ toUpperCase (msg_type msg) ++ "] "
          ++ JS.show (JS.or_else (text msg) (data msg)))%string)
  /\ JS.split nl (Console.downloadLogs consoleOutput) = map Console.line consoleOutput
  /\ Console.parse_transcript (Console.downloadLogs consoleOutput)
     = map (fun msg => Some (Console.shown msg)) consoleOutput.
Proof.
  intros Hne Hall.
  assert (Hsplit : JS.split nl (Console.downloadLogs consoleOutput)
                   = map Console.line consoleOutput).
  { unfold Console.downloadLogs. apply split_join.
    - destruct consoleOutput; [congruence|discriminate].
    - rewrite Forall_map. eapply Forall_impl; [|exact Hall].
      intros msg. apply line_one_line. }
  split; [reflexivity|split; [exact Hsplit|]].
  unfold Console.parse_transcript. rewrite Hsplit, map_map.
  apply map_ext_Forall. eapply Forall_impl; [|exact Hall].
  intros msg Hmsg. apply parse_line_line;
    unfold Console.readable_back, Console.shown in Hmsg; tauto.
Qed.

Lemma export_reads_back_upper_cased_witness :
  Console.parse_transcript
    (Console.downloadLogs
       [mkConsole "info" (Some "12:00:01") (Some "Done (3.2s)!") None;
        mkConsole "error" (Some "12:00:02") None (Some "Port in use")])
  = [Some ("12:00:01", "INFO", "Done (3.2s)!");
     Some ("12:00:02", "ERROR", "Port in use")].
Proof.
  refine (proj2 (proj2 (export_reads_back_upper_cased ascii_runtime
    [mkConsole "info" (Some "12:00:01") (Some "Done (3.2s)!") None;
     mkConsole "error" (Some "12:00:02") None (Some "Port in use")] _ _))).
  - discriminate.
  - repeat constructor.
Defined.

(** C4, as the claim states it, fails: the type comes back in upper case, so
    a record of type [info] is not recovered. *)
Lemma export_does_not_return_the_type :
  let msg := mkConsole "info" (Some "12:00:01") (Some "Done (3.2s)!") None in
  Console.parse_transcript (Console.downloadLogs [msg])
    = [Some ("12:00:01", "INFO", "Done (3.2s)!")]
  /\ Console.parse_transcript (Console.downloadLogs [msg]) <> [Some (Console.triple msg)].
Proof. split; [reflexivity|discriminate]. Qed.

(** ** The session: reconnect timers *)

Section Reconnect.
Import Page.

(** An abnormal close with the flag clear raises the flag and schedules one
    timer, kept in the ref. *)
Lemma onclose_abnormal_schedules_once code st :
  code <> 1000%Z -> isReconnectingRef st = false ->
  timers (onclose code st) = nextTimer st :: timers st
  /\ isReconnectingRef (onclose code st) = true
  /\ reconnectTimeoutRef (onclose code st) = Some (nextTimer st).
Proof.
  intros Hc Hf. unfold onclose. cbn.
  apply Z.eqb_neq in Hc. rewrite Hc, Hf. cbn. auto.
Qed.

(** While the flag is set a close, whatever its code, schedules nothing. *)
Lemma onclose_pending_schedules_nothing code st :
  isReconnectingRef st = true -> timers (onclose code st) = timers st.
Proof.
  intros Hf. unfold onclose. cbn. rewrite Hf, andb_false_r. reflexivity.
Qed.

(** A close with the code 1000 schedules nothing. *)
Lemma onclose_normal_schedules_nothing st :
  timers (onclose 1000 st) = timers st
  /\ isReconnectingRef (onclose 1000 st) = isReconnectingRef st.
Proof. split; reflexivity. Qed.

Lemma remove_not_In t l : ~ In t (remove Nat.eq_dec t l).
Proof. apply remove_In. Qed.

Lemma teardown_timers w st :
  timers (teardown w st) =
  match reconnectTimeoutRef st with
  | Some t => remove Nat.eq_dec t (timers st)
  | None => timers st
  end.
Proof.
  unfold teardown. destruct (reconnectTimeoutRef st) as [t|].
  - destruct (readyState w (clearTimeout t st)); reflexivity.
  - destruct (readyState w st); reflexivity.
Qed.

(** The clean-up cancels the timer the ref holds, schedules none, and closes
    an open socket. *)
Lemma teardown_cancels_ref_timer w t st :
  reconnectTimeoutRef st = Some t ->
  ~ In t (timers (teardown w st))
  /\ (forall t', In t' (timers (teardown w st)) -> In t' (timers st)).
Proof.
  intros Hr. rewrite teardown_timers, Hr. split.
  - apply remove_not_In.
  - intros t' H. apply in_remove in H. tauto.
Qed.

Lemma lifecycle_keeps_timers flag a failure st :
  timers (lifecycle flag a failure st) = timers st
  /\ isReconnectingRef (lifecycle flag a failure st) = isReconnectingRef st
  /\ reconnectTimeoutRef (lifecycle flag a failure st) = reconnectTimeoutRef st.
Proof.
  unfold lifecycle. destruct (socket st) as [w|]; [|auto].
  destruct (JS.truthy (actionInProgress st)); [auto|].
  unfold ws_send.
  destruct (readyState w (setActionInProgress flag st)); cbn; auto.
Qed.

Lemma onmessage_keeps_timers w frame st :
  timers (onmessage w frame st) = timers st
  /\ isReconnectingRef (onmessage w frame st) = isReconnectingRef st
  /\ reconnectTimeoutRef (onmessage w frame st) = reconnectTimeoutRef st.
Proof.
  destruct frame as [[]|]; cbn; auto.
  - unfold ws_send. destruct (readyState w st); cbn; auto.
  - destruct ((d =? "online") || (d =? "offline")); cbn; auto.
Qed.


Lemma teardown_single w st : single_timer st -> single_timer (teardown w st).
Proof.
  intros I. left. rewrite teardown_timers.
  destruct I as [I|(Hf & t & Ht & Hr)].
  - rewrite I. destruct (reconnectTimeoutRef st); reflexivity.
  - rewrite Hr, Ht. cbn. destruct (Nat.eq_dec t t); congruence.
Qed.

Lemma run_cleanup_single st : single_timer st -> single_timer (run_cleanup st).
Proof.
  intros I. unfold run_cleanup. destruct (cleanup st); [apply teardown_single|]; exact I.
Qed.

Lemma single_timer_fields st st' :
  timers st' = timers st -> isReconnectingRef st' = isReconnectingRef st ->
  reconnectTimeoutRef st' = reconnectTimeoutRef st ->
  single_timer st -> single_timer st'.
Proof. unfold single_timer. intros -> -> ->. auto. Qed.

Lemma single_timer_step st ev st' :
  single_timer st -> step st ev = Some st' ->
  (forall w, ev = WsOpen w -> timers st = []) ->
  single_timer st'.
Proof.
  intros I Hs Hopen. destruct ev; cbn in Hs.
  - injection Hs as <-. apply run_cleanup_single in I.
    revert I. generalize (run_cleanup st). intros s I. unfold effect.
    destruct (socket s); [exact I|]. destruct (isReconnectingRef s); exact I.
  - injection Hs as <-. apply run_cleanup_single in I. exact I.
  - destruct (readyState w st); try discriminate. injection Hs as <-.
    left. cbn. apply (Hopen w eq_refl).
  - destruct (readyState w st); try discriminate. injection Hs as <-.
    destruct (onmessage_keeps_timers w frame st) as (H1 & H2 & H3).
    eapply single_timer_fields; eauto.
  - assert (Hc : single_timer (onclose code (setReadyState w CLOSED st))).
    { assert (I' : single_timer (setReadyState w CLOSED st)) by exact I.
      revert I'. generalize (setReadyState w CLOSED st). intros s I'.
      unfold onclose. cbn.
      destruct (code =? 1000)%Z; cbn; [exact I'|].
      destruct (isReconnectingRef s) eqn:Hf; cbn; [exact I'|].
      destruct I' as [I'|(Hf' & _)]; [|congruence].
      right. split; [reflexivity|]. exists (nextTimer s). cbn. rewrite I'. auto. }
    destruct (readyState w st); try discriminate; injection Hs as <-; exact Hc.
  - destruct (existsb (Nat.eqb t) (timers st)) eqn:E; [|discriminate].
    injection Hs as <-. left. cbn.
    destruct I as [I|(Hf & t0 & Ht & Hr)].
    + rewrite I. reflexivity.
    + rewrite Ht in *. cbn in E. rewrite orb_false_r in E.
      apply Nat.eqb_eq in E. subst t0. cbn. destruct (Nat.eq_dec t t); congruence.
  - injection Hs as <-.
    destruct (lifecycle_keeps_timers "starting" start "Failed to start server" st) as (H1 & H2 & H3).
    eapply single_timer_fields; eauto.
  - injection Hs as <-.
    destruct (lifecycle_keeps_timers "stopping" stop "Failed to stop server" st) as (H1 & H2 & H3).
    eapply single_timer_fields; eauto.
  - injection Hs as <-.
    destruct (lifecycle_keeps_timers "restarting" restart "Failed to restart server" st) as (H1 & H2 & H3).
    eapply single_timer_fields; eauto.
  - injection Hs as <-. exact I.
  - injection Hs as <-. destruct ok; exact I.
Qed.

(** X2.  From a state with at most one timer pending, known to the flag and
    the ref, every run in which no socket opens while a reconnect timer is
    pending ends with at most one reconnect timer pending. *)
Theorem calm_run_single_timer evs : forall st st',
  single_timer st -> calm evs st -> run evs st = Some st' ->
  (List.length (timers st') <= 1)%nat.
Proof.
  induction evs as [|ev evs IH]; intros st st' I C Hr; cbn in *.
  - injection Hr as <-. destruct I as [I|(_ & t & I & _)]; rewrite I; cbn; lia.
  - destruct C as [C1 C2]. destruct (step st ev) as [s|] eqn:E; [|discriminate].
    apply (IH s st'); auto.
    eapply single_timer_step; eauto.
    intros w ->. exact C1.
Qed.

Lemma calm_run_single_timer_witness :
  (List.length
     (timers
        (match run [RunEffect; WsOpen 0; WsClose 0 1006; TimerFire 1; RunEffect] initial with
         | Some st' => st'
         | None => initial
         end)) <= 1)%nat.
Proof.
  destruct (run [RunEffect; WsOpen 0; WsClose 0 1006; TimerFire 1; RunEffect] initial)
    as [st'|] eqn:E.
  - apply (calm_run_single_timer
             [RunEffect; WsOpen 0; WsClose 0 1006; TimerFire 1; RunEffect] initial st').
    + left. reflexivity.
    + vm_compute. repeat split.
    + exact E.
  - vm_compute. lia.
Defined.

(** X1.  What one close does to the reconnect timers.  An abnormal close
    (a code other than 1000) that finds the flag clear raises the flag,
    schedules exactly one timer and keeps its handle in the ref; a close that
    finds the flag set schedules nothing, whatever its code; a close with the
    code 1000 schedules nothing and leaves the flag as it is.  The clean-up
    cancels the timer whose handle the ref holds and schedules none. *)
Theorem close_schedules_at_most_one_timer (st : State) :
  (forall code, code <> 1000%Z -> isReconnectingRef st = false ->
     timers (onclose code st) = nextTimer st :: timers st
     /\ isReconnectingRef (onclose code st) = true
     /\ reconnectTimeoutRef (onclose code st) = Some (nextTimer st))
  /\ (forall code, isReconnectingRef st = true ->
        timers (onclose code st) = timers st)
  /\ (timers (onclose 1000 st) = timers st
      /\ isReconnectingRef (onclose 1000 st) = isReconnectingRef st)
  /\ (forall w t, reconnectTimeoutRef st = Some t ->
        ~ In t (timers (teardown w st))
        /\ forall t', In t' (timers (teardown w st)) -> In t' (timers st)).
Proof.
  split; [|split; [|split]].
  - intros code. apply onclose_abnormal_schedules_once.
  - intros code. apply onclose_pending_schedules_nothing.
  - apply onclose_normal_schedules_nothing.
  - intros w t. apply teardown_cancels_ref_timer.
Qed.


(** C5.  The guard does not keep the timers at one.  The effect runs twice
    (as whenever it is run again while its first socket is still connecting,
    which the clean-up leaves alone); the first socket fails and schedules
    timer 1; the second socket opens, which clears the flag, and is then lost:
    its close schedules timer 2 while timer 1 is still pending.  The clean-up
    that follows cancels only the timer the ref holds. *)
Theorem two_reconnect_timers_pending :
  let evs := [RunEffect; RunEffect; WsClose 0 1006; WsOpen 1; WsClose 1 1006] in
  option_map timers (run evs initial) = Some [2; 1]%nat
  /\ option_map timers (run (evs ++ [Unmount]) initial) = Some [1]%nat.
Proof. split; reflexivity. Qed.

End Reconnect.

(** ** The lifecycle buttons and the upload *)

Lemma truthy_nonempty s : JS.truthy s = true <-> s <> "".
Proof.
  unfold JS.truthy. destruct (String.eqb_spec s ""); cbn; split; congruence.
Qed.

Section Lifecycle.
Import Page.

Lemma lifecycle_rejected flag a failure st :
  actionInProgress st <> "" -> lifecycle flag a failure st = st.
Proof.
  intros H. apply truthy_nonempty in H. unfold lifecycle.
  destruct (socket st); [rewrite H|]; reflexivity.
Qed.

Lemma lifecycle_flag flag a failure st :
  actionInProgress st <> "" -> actionInProgress (lifecycle flag a failure st) <> "".
Proof. intros H. rewrite lifecycle_rejected; assumption. Qed.

(** C6, as the code has it.  A start, stop or restart issued while
    [actionInProgress] is not empty changes nothing: no frame is sent.  A
    status message whose value is [online] or [offline] clears
    [actionInProgress].  It is not the only event that does: whenever a step
    takes [actionInProgress] from a value to the empty string, the event is
    such a status message or the end of an EULA acceptance. *)
Theorem lifecycle_guard_and_clearing :
  (forall st, actionInProgress st <> "" ->
     startServer st = st /\ stopServer st = st /\ restartServer st = st)
  /\
  (forall w st d, d = "online" \/ d = "offline" ->
     actionInProgress (onmessage w (Some (status_msg d)) st) = "")
  /\
  (forall st ev st', step st ev = Some st' ->
     actionInProgress st <> "" -> actionInProgress st' = "" ->
     (exists w d, ev = WsMessage w (Some (status_msg d)) /\ (d = "online" \/ d = "offline"))
     \/ (exists ok, ev = AcceptEulaEnd ok)).
Proof.
  split; [|split].
  - intros st H. repeat split; apply lifecycle_rejected; assumption.
  - intros w st d [->| ->]; reflexivity.
  - intros st ev st' Hs Hb Ha. destruct ev; cbn in Hs.
    + injection Hs as <-. exfalso. apply Hb. rewrite <- Ha. clear.
      unfold run_cleanup, effect, teardown.
      destruct (cleanup st) as [w|];
        [destruct (reconnectTimeoutRef st); [destruct (readyState w (clearTimeout n st))|destruct (readyState w st)]|];
        cbn; repeat match goal with |- context [match ?x with _ => _ end] => destruct x; cbn end; reflexivity.
    + injection Hs as <-. exfalso. apply Hb. rewrite <- Ha. clear.
      unfold run_cleanup, teardown.
      destruct (cleanup st) as [w|];
        [destruct (reconnectTimeoutRef st); [destruct (readyState w (clearTimeout n st))|destruct (readyState w st)]|];
        reflexivity.
    + destruct (readyState w st); try discriminate. injection Hs as <-.
      exfalso. apply Hb. exact Ha.
    + destruct (readyState w st); try discriminate. injection Hs as <-.
      destruct frame as [[]|]; cbn in Ha; try (exfalso; apply Hb; exact Ha).
      * exfalso. apply Hb. rewrite <- Ha. unfold ws_send.
        destruct (readyState w st); reflexivity.
      * left. exists w, d. split; [reflexivity|].
        destruct (String.eqb_spec d "online"); [auto|].
        destruct (String.eqb_spec d "offline"); [auto|].
        cbn in Ha. contradiction.
    + exfalso. apply Hb. rewrite <- Ha.
      assert (E : st' = onclose code (setReadyState w CLOSED st))
        by (destruct (readyState w st); congruence).
      rewrite E. unfold onclose. cbn.
      destruct (negb (code =? 1000)%Z && negb (isReconnectingRef st)); reflexivity.
    + destruct (existsb (Nat.eqb t) (timers st)); [|discriminate].
      injection Hs as <-. exfalso. apply Hb. exact Ha.
    + injection Hs as <-. exfalso. revert Ha. apply lifecycle_flag. exact Hb.
    + injection Hs as <-. exfalso. revert Ha. apply lifecycle_flag. exact Hb.
    + injection Hs as <-. exfalso. revert Ha. apply lifecycle_flag. exact Hb.
    + injection Hs as <-. discriminate.
    + right. eauto.
Qed.

(** C6, as the claim states it, fails: with a start in flight the EULA
    dialogue overwrites the flag and clears it when it ends; no status message
    has arrived, and a second start is sent. *)
Lemma eula_acceptance_clears_the_flag :
  let evs := [RunEffect; WsOpen 0; ClickStart; WsMessage 0 (Some need_eula);
              AcceptEulaBegin; AcceptEulaEnd true] in
  option_map actionInProgress (run [RunEffect; WsOpen 0; ClickStart] initial) = Some "starting"
  /\ option_map actionInProgress (run evs initial) = Some ""
  /\ option_map sent (run evs initial) = Some [(0, start)]
  /\ option_map sent (run (evs ++ [ClickStart]) initial) = Some [(0, start); (0, start)].
Proof. repeat split. Qed.

(** C9.  An upload to the root, the empty target path, posts to the URL
    whose last segment is the reserved sentinel, which is not empty; an upload
    to any other target posts to the URL ending in that target, unchanged.
    The target segment is never empty. *)
Theorem upload_to_root_uses_sentinel (serverName targetPath fileName : string) :
  (targetPath = "" ->
     url (uploadFile serverName targetPath fileName)
     = "/servers/" ++ serverName ++ "/files/upload/" ++ rootSentinel)%string
  /\ (targetPath <> "" ->
     url (uploadFile serverName targetPath fileName)
     = "/servers/" ++ serverName ++ "/files/upload/" ++ targetPath)%string
  /\ (targetPath <> "" -> uploadTarget targetPath = targetPath)
  /\ uploadTarget "" = rootSentinel
  /\ rootSentinel <> ""
  /\ uploadTarget targetPath <> "".
Proof.
  unfold uploadFile, uploadTarget, JS.truthy. cbn [url].
  destruct (String.eqb_spec targetPath "") as [->|Hne]; cbn.
  - repeat split; try reflexivity; try congruence; discriminate.
  - repeat split; try reflexivity; try congruence; discriminate.
Qed.

End Lifecycle.

(** ** The clipboard *)

Section Clipboard.
Import Explorer.

Lemma pasteTarget_cases dest nm :
  (dest <> "" -> pasteTarget dest nm = dest ++ "/" ++ nm)%string
  /\ (dest = "" -> pasteTarget dest nm = nm).
Proof.
  unfold pasteTarget, JS.truthy.
  destruct (String.eqb_spec dest ""); cbn; split; congruence.
Qed.

(** C7, as the code has it.  With a source path that is not empty in the
    clipboard, paste targets [targetDir/basename(sourcePath)] when the target
    directory is not empty and [basename(sourcePath)] alone at the root.
    After copy, paste calls [copyFile] and leaves the clipboard as it is,
    whether the call succeeds or not, so a second paste copies again.  After
    cut, paste calls [moveFile]; when the move succeeds it empties the
    clipboard, so a second paste changes nothing and calls nothing; when the
    move fails the clipboard and the menu stay as they were and a second
    paste calls [moveFile] again.  With an empty clipboard paste changes
    nothing. *)
Theorem paste_after_copy_and_cut
  (f : ServerFile) (destinationPath : option string) (st : State) :
  path f <> "" ->
  let dest := match destinationPath with Some d => d | None => currentPath st end in
  let target := pasteTarget dest (basename (path f)) in
  let copied := fun o => handlePaste page_props o destinationPath (handleCopy f st) in
  let moved := fun o => handlePaste page_props o destinationPath (handleCut f st) in
  ((dest <> "" -> target = dest ++ "/" ++ basename (path f))%string
   /\ (dest = "" -> target = basename (path f)))
  /\ (forall o,
        calls (copied o) = copyFile (path f) target :: calls st
        /\ clipboard (copied o) = mkClipboard (Some copy) (Some (path f))
        /\ forall o', calls (handlePaste page_props o' destinationPath (copied o))
                      = copyFile (path f) target :: copyFile (path f) target :: calls st)
  /\ (calls (moved resolves) = moveFile (path f) target :: calls st
      /\ clipboard (moved resolves) = mkClipboard None None
      /\ forall props o d, handlePaste props o d (moved resolves) = moved resolves)
  /\ (calls (moved rejects) = moveFile (path f) target :: calls st
      /\ clipboard (moved rejects) = mkClipboard (Some cut) (Some (path f))
      /\ contextMenu (moved rejects) = contextMenu (handleCut f st)
      /\ forall o, calls (handlePaste page_props o destinationPath (moved rejects))
                   = moveFile (path f) target :: moveFile (path f) target :: calls st)
  /\ (forall props o d s, clipboard s = mkClipboard None None -> handlePaste props o d s = s).
Proof.
  intros Hp. cbv zeta. apply truthy_nonempty in Hp.
  split; [apply pasteTarget_cases|].
  split; [|split; [|split]].
  - intros o. unfold handlePaste, handleCopy. cbn. rewrite Hp. cbn.
    destruct o; cbn; rewrite Hp; cbn; (repeat split); intros []; reflexivity.
  - unfold handlePaste, handleCut. cbn. rewrite Hp. cbn. repeat split.
  - unfold handlePaste, handleCut. cbn. rewrite Hp. cbn. rewrite Hp. cbn.
    repeat split. intros []; reflexivity.
  - intros props o d s Hs. unfold handlePaste. rewrite Hs. reflexivity.
Qed.

Lemma paste_after_copy_and_cut_witness :
  calls (handlePaste page_props resolves (Some "plugins")
           (handleCut (mkFile "world/level.dat" "level.dat" file (Some 10%Z) "t") initial))
  = [moveFile "world/level.dat" "plugins/level.dat"].
Proof.
  refine (proj1 (proj1 (proj2 (proj2 (paste_after_copy_and_cut
    (mkFile "world/level.dat" "level.dat" file (Some 10%Z) "t") (Some "plugins") initial _))))).
  discriminate.
Defined.

(** C7, as the claim states it, fails twice.  At the root the target of a
    paste is the base name, without the separator.  And after a cut, a paste
    whose move is rejected leaves the clipboard populated: the second paste
    is no no-op, it calls [moveFile] again. *)
Lemma paste_at_root_and_after_a_failed_move :
  let f := mkFile "plugins/a.jar" "a.jar" file (Some 10%Z) "t" in
  let st := handlePaste page_props resolves None (handleCopy f initial) in
  let failed := handlePaste page_props rejects (Some "mods") (handleCut f initial) in
  (calls st = [copyFile "plugins/a.jar" "a.jar"]
   /\ calls st <> [copyFile "plugins/a.jar" (currentPath initial ++ "/" ++ basename (path f))])
  /\ (clipboard failed = mkClipboard (Some cut) (Some "plugins/a.jar")
      /\ calls (handlePaste page_props resolves (Some "mods") failed)
         = [moveFile "plugins/a.jar" "mods/a.jar"; moveFile "plugins/a.jar" "mods/a.jar"]).
Proof. split; split; try reflexivity. discriminate. Qed.

End Clipboard.

(** ** The readability policy *)

Section Readability.
Context {R : JSRuntime}.
Import Explorer.

Lemma mem_In s l : mem s l = true <-> In s l.
Proof.
  unfold mem. rewrite existsb_exists. split.
  - intros (x & Hx & E). apply String.eqb_eq in E. congruence.
  - intros H. exists s. split; [exact H|apply String.eqb_refl].
Qed.

Lemma allowed_ext_truthy ext : In ext textReadableExts -> JS.truthy ext = true.
Proof.
  intros H. unfold JS.truthy. destruct (String.eqb_spec ext "") as [->|]; [|reflexivity].
  cbn in H. repeat (destruct H as [H|H]; [discriminate H|]). contradiction.
Qed.

Lemma isTextReadable_spec nm :
  isTextReadable nm = true <-> In (extension nm) textReadableExts.
Proof.
  unfold isTextReadable. rewrite andb_true_iff, mem_In. split; [tauto|].
  intros H. split; [apply allowed_ext_truthy|]; exact H.
Qed.

Lemma isReadable_spec f :
  isReadable f = true <->
  type f = file /\ In (extension (name f)) textReadableExts
  /\ (forall s, size f = Some s -> (s <= 5 * 1024 * 1024)%Z).
Proof.
  unfold isReadable. rewrite <- isTextReadable_spec.
  destruct (type f); cbn.
  - split; [discriminate|]. intros (H & _). discriminate.
  - destruct (isTextReadable (name f)); cbn.
    + destruct (size f) as [s|].
      * destruct (Z.eqb_spec s 0) as [->|Hs]; cbn.
        -- split; auto. intros _. repeat split. intros s [= <-]. lia.
        -- destruct (Z.gtb_spec s 5242880) as [Hg|Hg].
           ++ split; [discriminate|]. intros (_ & _ & H). specialize (H s eq_refl). lia.
           ++ split; auto. intros _. repeat split. intros s' [= <-]. lia.
      * split; auto. intros _. repeat split. discriminate.
    + split; [discriminate|]. intros (_ & H & _). discriminate.
Qed.

Lemma split_before sep a b :
  exists h l, JS.split sep (a ++ String sep b) = (h :: l) ++ JS.split sep b.
Proof.
  induction a as [|c a (h & l & IH)]; cbn [String.append JS.split].
  - rewrite Ascii.eqb_refl. exists "", []. reflexivity.
  - rewrite IH. destruct (Ascii.eqb c sep).
    + exists "", (h :: l). reflexivity.
    + exists (String c h), l. reflexivity.
Qed.

Lemma last_split_app sep a b d :
  last (JS.split sep (a ++ String sep b)) d = last (JS.split sep b) d.
Proof.
  destruct (split_before sep a b) as (h & l & ->).
  assert (Hne : JS.split sep b <> []).
  { destruct b as [|c s]; cbn; [discriminate|].
    destruct (Ascii.eqb c sep); [discriminate|]. destruct (JS.split sep s); discriminate. }
  generalize (h :: l). clear h l. intros l.
  induction l as [|x l IH]; [reflexivity|].
  cbn [app]. rewrite <- IH.
  destruct (l ++ JS.split sep b) eqn:E; [|reflexivity].
  apply app_eq_nil in E. destruct E as [_ E]. contradiction.
Qed.

(** The text after the last dot of a name. *)
Lemma extension_after_last_dot stem ext :
  Console.has "." ext = false ->
  extension (stem ++ "." ++ ext) = toLowerCase ext.
Proof.
  intros H. unfold extension, JS.pop. f_equal.
  change (stem ++ "." ++ ext)%string with (stem ++ String "." ext)%string.
  rewrite last_split_app, (split_single "." ext H). reflexivity.
Qed.

(** A name without a dot counts as its own extension. *)
Lemma extension_without_dot nm :
  Console.has "." nm = false -> extension nm = toLowerCase nm.
Proof. intros H. unfold extension, JS.pop. rewrite (split_single "." nm H). reflexivity. Qed.

(** C8, as the code has it.  A file whose name has a dot is readable in the
    editor exactly when it is a file, the lower-cased text after the last dot
    of its name is in the allow-list, and its size, when it has one, is at
    most 5 MiB: a file without a size passes.  A directory is never
    readable.  Opening an entry that is not readable never fetches its
    content: a file is shown read-only with the placeholder text, and saving
    then writes nothing; a directory leaves the editor as it was; and the
    first entry of the context menu downloads it.  (A name without a dot
    counts whole as its extension.) *)
Theorem only_allowed_small_files_open_for_editing (f : ServerFile) :
  (forall stem ext,
     name f = (stem ++ "." ++ ext)%string -> Console.has "." ext = false ->
     (isReadable f = true <->
        type f = file /\ In (toLowerCase ext) textReadableExts
        /\ (forall s, size f = Some s -> (s <= 5 * 1024 * 1024)%Z)))
  /\
  (isReadable f = true ->
     type f = file /\ (forall s, size f = Some s -> (s <= 5 * 1024 * 1024)%Z))
  /\
  (type f = directory -> isReadable f = false)
  /\
  (isReadable f = false ->
   forall props content st,
     let st' := handleFileClick content f st in
     calls st' = calls st
     /\ (type f = file ->
           editingFile st' = Some (path f)
           /\ editorReadOnly st' = true
           /\ fileContent st' = placeholder
           /\ calls (handleSave st') = calls st)
     /\ (type f = directory ->
           editingFile st' = editingFile st
           /\ fileContent st' = fileContent st
           /\ editorReadOnly st' = editorReadOnly st)
     /\ contextMenuOpen props content f st = handleDownload props f st)
  /\
  (Console.has "." (name f) = false ->
     (isReadable f = true <->
        type f = file /\ In (toLowerCase (name f)) textReadableExts
        /\ (forall s, size f = Some s -> (s <= 5 * 1024 * 1024)%Z))).
Proof.
  split; [|split; [|split; [|split]]].
  - intros stem ext Hn Hd. rewrite isReadable_spec, Hn, (extension_after_last_dot stem ext Hd).
    reflexivity.
  - intros H. apply isReadable_spec in H. tauto.
  - intros Hd. unfold isReadable. rewrite Hd. reflexivity.
  - intros Hr props content st. cbv zeta.
    unfold contextMenuOpen, handleFileClick. rewrite Hr.
    destruct (type f); cbn.
    + repeat split; discriminate.
    + repeat split; try discriminate.
      unfold handleSave. cbn. rewrite andb_false_r. reflexivity.
  - intros Hd. rewrite isReadable_spec, (extension_without_dot _ Hd). reflexivity.
Qed.

End Readability.

(** C8, as the claim states it, fails: a file of the allow-list that comes
    without a size is opened for editing, though nothing says that it has at
    most 5 MiB. *)
Lemma file_without_size_opens_for_editing :
  let f := mkFile "ops.json" "ops.json" file None "t" in
  let st := Explorer.handleFileClick (R := ascii_runtime) "[]" f Explorer.initial in
  (forall s, size f = Some s -> (s <= 5 * 1024 * 1024)%Z -> False)
  /\ Explorer.isReadable (R := ascii_runtime) f = true
  /\ Explorer.editingFile st = Some "ops.json"
  /\ Explorer.editorReadOnly st = false
  /\ Explorer.fileContent st = "[]".
Proof. cbv zeta. split; [discriminate|repeat split]. Qed.

(** ** The explorer: listings, navigation and renaming *)

(** ** Paths and segments *)

Section Segments.
Import Files Explorer FileActions.

Lemma split_no_separator sep p :
  Forall (fun s => Console.has sep s = false) (JS.split sep p).
Proof.
  induction p as [|c p IH]; simpl.
  - repeat constructor.
  - destruct (Ascii.eqb c sep) eqn:E.
    + constructor; [reflexivity|exact IH].
    + destruct (JS.split sep p) as [|h t]; inversion IH; subst;
        constructor; simpl; rewrite ?E; auto.
Qed.

Lemma split_not_nil sep p : JS.split sep p <> [].
Proof.
  destruct p as [|c p]; simpl; [discriminate|].
  destruct (Ascii.eqb c sep); [discriminate|].
  destruct (JS.split sep p); discriminate.
Qed.

Lemma parts_segments p : Forall (fun s => segment s = true) (parts p).
Proof.
  unfold parts, JS.filterBoolean. apply Forall_forall. intros s Hs.
  apply filter_In in Hs. destruct Hs as [Hin Ht].
  unfold segment. rewrite Ht. cbn.
  pose proof (split_no_separator "/" p) as H. rewrite Forall_forall in H.
  rewrite (H s Hin). reflexivity.
Qed.

Lemma segment_spec s : segment s = true <-> s <> "" /\ Console.has "/" s = false.
Proof.
  unfold segment. rewrite andb_true_iff, negb_true_iff, truthy_nonempty. tauto.
Qed.

Lemma filter_all_true {A} (f : A -> bool) l :
  Forall (fun x => f x = true) l -> filter f l = l.
Proof. induction 1 as [|x l Hx _ IH]; simpl; [|rewrite Hx, IH]; reflexivity. Qed.

(** Joining segments and splitting again gives the segments back. *)
Lemma parts_join q :
  Forall (fun s => segment s = true) q -> parts (JS.join "/" q) = q.
Proof.
  intros Hq. destruct q as [|a q]; [reflexivity|].
  unfold parts, JS.filterBoolean.
  rewrite (split_join "/" (a :: q)).
  - apply filter_all_true. eapply Forall_impl; [|exact Hq].
    intros s Hs. apply andb_true_iff in Hs. tauto.
  - discriminate.
  - eapply Forall_impl; [|exact Hq].
    intros s Hs. apply segment_spec in Hs. tauto.
Qed.

Lemma split_join_segments q :
  q <> [] -> Forall (fun s => segment s = true) q -> JS.split "/" (JS.join "/" q) = q.
Proof.
  intros Hne Hq. apply (split_join "/" q Hne).
  eapply Forall_impl; [|exact Hq]. intros s Hs. apply segment_spec in Hs. tauto.
Qed.

Lemma prefixb_app q ps : prefixb q ps = true -> exists r, ps = q ++ r.
Proof.
  revert ps. induction q as [|k q IH]; intros ps H.
  - exists ps. reflexivity.
  - destruct ps as [|p ps]; [discriminate|]. cbn in H.
    apply andb_true_iff in H. destruct H as [E H].
    apply String.eqb_eq in E. subst p.
    destruct (IH ps H) as [r ->]. exists r. reflexivity.
Qed.

Lemma reaches_app q ps : reaches q ps = true -> q <> [] /\ exists r, ps = q ++ r.
Proof.
  destruct q as [|k q]; [discriminate|]. intros H. split; [discriminate|].
  apply prefixb_app. exact H.
Qed.

(** In the rebuilt tree a chain that leads to a node is made of segments, and
    the node carries the last one as name and the joined chain as path. *)
Lemma resolve_build files q n :
  resolve q (buildFileTree files) = Some n ->
  q <> [] /\ Forall (fun s => segment s = true) q
  /\ name (info n) = last q "" /\ path (info n) = JS.join "/" q.
Proof.
  intros Hq.
  assert (Hi : info_at q (buildFileTree files) = Some (info n))
    by (apply info_at_resolve; eauto).
  rewrite info_at_build in Hi.
  destruct (creator q files) as [f|] eqn:E; [|discriminate].
  apply creator_In in E. destruct E as [_ Hr].
  apply reaches_app in Hr. destruct Hr as (Hne & r & Hr).
  cbn in Hi. injection Hi as Hi. rewrite <- Hi. cbn.
  repeat split; auto.
  pose proof (parts_segments (path f)) as Hs. rewrite Hr in Hs.
  apply Forall_app in Hs. tauto.
Qed.

Lemma descend_app q r t :
  descend (q ++ r) t =
  match descend q t with
  | Some t' => descend r t'
  | None => None
  end.
Proof.
  revert t. induction q as [|k q IH]; intros t; [reflexivity|].
  cbn. destruct (lookup k t); auto.
Qed.

Lemma resolve_snoc q k t :
  resolve (q ++ [k]) t =
  match descend q t with
  | Some t' => lookup k t'
  | None => None
  end.
Proof.
  revert t. induction q as [|k0 q IH]; intros t.
  - cbn. destruct (lookup k t); reflexivity.
  - change ((k0 :: q) ++ [k]) with (k0 :: (q ++ [k])).
    rewrite resolve_cons. cbn [descend].
    destruct (lookup k0 t) as [n|]; [|reflexivity].
    rewrite <- IH. destruct (q ++ [k]) eqn:E; [|reflexivity].
    destruct q; discriminate.
Qed.

Lemma descend_snoc q k t :
  descend (q ++ [k]) t = option_map children (resolve (q ++ [k]) t).
Proof.
  rewrite descend_app, resolve_snoc.
  destruct (descend q t) as [t'|]; [|reflexivity].
  cbn. destruct (lookup k t'); reflexivity.
Qed.

Lemma wf_descend q : forall t t', wf t -> descend q t = Some t' -> wf t'.
Proof.
  induction q as [|k q IH]; intros t t' Ht H; cbn in H.
  - congruence.
  - destruct (lookup k t) as [n|] eqn:E; [|discriminate].
    eapply IH; [|exact H]. eapply lookup_wf; eauto.
Qed.

Lemma In_lookup_some k n t : In (k, n) t -> lookup k t <> None.
Proof.
  induction t as [|[k' n'] t IH]; [contradiction|].
  intros [H|H]; cbn.
  - injection H as -> ->. rewrite String.eqb_refl. discriminate.
  - destruct (k =? k'); [discriminate|auto].
Qed.

Lemma wf_In_lookup k n t : wf t -> In (k, n) t -> lookup k t = Some n.
Proof.
  induction 1 as [|k' n' t Hk Hc _ Ht IH]; [contradiction|].
  intros [H|H]; cbn.
  - injection H as -> ->. now rewrite String.eqb_refl.
  - destruct (String.eqb_spec k k') as [->|Hne]; [|auto].
    apply In_lookup_some in H. contradiction.
Qed.

(** What [getCurrentFiles] lists is the level the segments of the path lead
    to. *)
Lemma getCurrentFiles_level t p f :
  In f (getCurrentFiles t p) ->
  exists t', descend (parts p) t = Some t' /\ In f (values t').
Proof.
  unfold getCurrentFiles, JS.truthy.
  destruct (String.eqb_spec p "") as [->|Hne]; cbn.
  - intros H. exists t. auto.
  - destruct (descend (parts p) t) as [t'|]; [eauto|contradiction].
Qed.

Lemma getCurrentFiles_resolved t p t' :
  descend (parts p) t = Some t' -> getCurrentFiles t p = values t'.
Proof.
  unfold getCurrentFiles, JS.truthy. intros H.
  destruct (String.eqb_spec p "") as [->|Hne]; cbn.
  - cbn in H. congruence.
  - rewrite H. reflexivity.
Qed.

Lemma listed_entry files p f :
  In f (getCurrentFiles (buildFileTree files) p) ->
  exists n,
    resolve (parts p ++ [name f]) (buildFileTree files) = Some n
    /\ info n = f
    /\ segment (name f) = true
    /\ path f = JS.join "/" (parts p ++ [name f]).
Proof.
  intros H. apply getCurrentFiles_level in H. destruct H as (t' & Hd & Hin).
  unfold values in Hin. apply in_map_iff in Hin.
  destruct Hin as ([k n] & Hf & Hin). cbn in Hf.
  assert (Hl : lookup k t' = Some n).
  { apply wf_In_lookup; [|exact Hin]. eapply wf_descend; [apply wf_build|exact Hd]. }
  assert (Hr : resolve (parts p ++ [k]) (buildFileTree files) = Some n)
    by (rewrite resolve_snoc, Hd; exact Hl).
  destruct (resolve_build _ _ _ Hr) as (_ & Hs & Hn & Hp).
  rewrite last_last in Hn. rewrite Hf in Hn, Hp. subst k.
  exists n. repeat split; auto.
  apply Forall_app in Hs. destruct Hs as [_ Hs]. inversion Hs; assumption.
Qed.


Lemma segments_nonempty_join q :
  q <> [] -> Forall (fun s => segment s = true) q -> JS.join "/" q <> "".
Proof.
  intros Hne Hq E. apply (f_equal parts) in E.
  rewrite parts_join in E by assumption. cbn in E. contradiction.
Qed.

(** X4.  Every entry the explorer lists for a path of the rebuilt tree is a
    child of the directory shown: its name is one segment, its path is the
    shown path (without empty segments) followed by its name, and listing its
    own path shows its children, never the fallback for a path that does not
    resolve; a click on a listed directory moves the explorer there and
    clears the filter. *)
Theorem listed_entries_open_onto_their_children
  (files : list ServerFile) (p : string) (f : ServerFile) :
  In f (getCurrentFiles (buildFileTree files) p) ->
  name f <> "" /\ Console.has "/" (name f) = false
  /\ path f = JS.join "/" (parts p ++ [name f])
  /\ parts (path f) = parts p ++ [name f]
  /\ exists n,
       resolve (parts p ++ [name f]) (buildFileTree files) = Some n
       /\ info n = f
       /\ getCurrentFiles (buildFileTree files) (path f) = values (children n)
       /\ (type f = directory ->
           forall (R : JSRuntime) content st,
             currentPath (handleFileClick content f st) = path f
             /\ filter_text (handleFileClick content f st) = ""
             /\ calls (handleFileClick content f st) = calls st).
Proof.
  intros H. destruct (listed_entry files p f H) as (n & Hr & Hi & Hs & Hp).
  assert (Hall : Forall (fun s => segment s = true) (parts p ++ [name f])).
  { apply Forall_app. split; [apply parts_segments|]. constructor; [exact Hs|constructor]. }
  assert (Hparts : parts (path f) = parts p ++ [name f])
    by (rewrite Hp; apply parts_join; exact Hall).
  apply segment_spec in Hs. destruct Hs as [Hne Hsl].
  repeat (split; [assumption|]).
  exists n. repeat (split; [assumption|]). split.
  - apply getCurrentFiles_resolved. rewrite Hparts, descend_snoc, Hr. reflexivity.
  - intros Hd R content st. unfold handleFileClick. rewrite Hd. cbn. auto.
Qed.

Lemma listed_entries_open_onto_their_children_witness :
  getCurrentFiles
    (buildFileTree [mkFile "/plugins//Essentials/config.yml" "config.yml" file (Some 120%Z) "t"])
    "plugins/Essentials"
  = [mkFile "plugins/Essentials/config.yml" "config.yml" file (Some 120%Z) "t"].
Proof.
  destruct (listed_entries_open_onto_their_children
    [mkFile "/plugins//Essentials/config.yml" "config.yml" file (Some 120%Z) "t"]
    "/plugins"
    (mkFile "plugins/Essentials" "Essentials" directory None "t"))
    as (_ & _ & _ & _ & n & Hn & Hi & Hl & _).
  - left. reflexivity.
  - injection Hn as <-. exact Hl.
Defined.

Lemma NoDup_map_filter {A B} (g : A -> B) (keep : A -> bool) l :
  NoDup (map g l) -> NoDup (map g (filter keep l)).
Proof.
  induction l as [|a l IH]; simpl; intros H; [constructor|].
  inversion H as [|? ? Hn Hd]; subst.
  destruct (keep a); simpl; auto.
  constructor; auto. intros Hin. apply Hn.
  apply in_map_iff in Hin. destruct Hin as (x & Hx & Hin).
  apply filter_In in Hin. apply in_map_iff. exists x. tauto.
Qed.

Lemma wf_keys_NoDup t : wf t -> NoDup (map fst t).
Proof.
  induction 1 as [|k n t Hk Hc _ Ht IH]; simpl; constructor; auto.
  intros Hin. apply in_map_iff in Hin. destruct Hin as ([k' n'] & E & Hin).
  cbn in E. subst k'. apply In_lookup_some in Hin. contradiction.
Qed.

(** X5.  No two entries listed for a directory of the rebuilt tree share a
    name or a path, and the same holds for what is shown after the filter
    and the sort: the keys React is given ([key={file.path}]) are distinct. *)
Theorem listed_names_and_paths_are_distinct
  (R : JSRuntime) (files : list ServerFile) (st : State) (p : string) :
  NoDup (map name (getCurrentFiles (buildFileTree files) p))
  /\ NoDup (map path (getCurrentFiles (buildFileTree files) p))
  /\ NoDup (map path (currentFiles files st)).
Proof.
  assert (Hn : forall p, NoDup (map name (getCurrentFiles (buildFileTree files) p))).
  { clear p. intros p.
    destruct (descend (parts p) (buildFileTree files)) as [t'|] eqn:Hd.
    - assert (Hk : map name (getCurrentFiles (buildFileTree files) p) = map fst t').
      { rewrite (getCurrentFiles_resolved _ _ _ Hd).
        assert (Hw : wf t') by (eapply wf_descend; [apply wf_build|exact Hd]).
        assert (Hkey : forall k n, In (k, n) t' -> name (info n) = k).
        { intros k n Hin.
          assert (Hr : resolve (parts p ++ [k]) (buildFileTree files) = Some n)
            by (rewrite resolve_snoc, Hd; apply wf_In_lookup; assumption).
          destruct (resolve_build _ _ _ Hr) as (_ & _ & Hnm & _).
          rewrite last_last in Hnm. exact Hnm. }
        unfold values. rewrite map_map. clear -Hkey.
        induction t' as [|[k n] t' IH]; [reflexivity|]. cbn.
        rewrite (Hkey k n) by (left; reflexivity).
        f_equal. apply IH. intros k' n' Hin. apply Hkey. right. exact Hin. }
      rewrite Hk. apply wf_keys_NoDup. eapply wf_descend; [apply wf_build|exact Hd].
    - assert (E : getCurrentFiles (buildFileTree files) p = []).
      { destruct (getCurrentFiles (buildFileTree files) p) as [|f l] eqn:E; [reflexivity|].
        assert (Hin : In f (getCurrentFiles (buildFileTree files) p))
          by (rewrite E; left; reflexivity).
        apply getCurrentFiles_level in Hin. destruct Hin as (t' & Ht' & _). congruence. }
      rewrite E. constructor. }
  assert (Hp : forall p, NoDup (map path (getCurrentFiles (buildFileTree files) p))).
  { clear p. intros p. specialize (Hn p).
    assert (Hf : forall f, In f (getCurrentFiles (buildFileTree files) p) ->
                           last (parts (path f)) "" = name f).
    { intros f Hin.
      destruct (listed_entry files p f Hin) as (n & _ & _ & Hs & Hpath).
      rewrite Hpath, parts_join, last_last; [reflexivity|].
      apply Forall_app. split; [apply parts_segments|]. constructor; [exact Hs|constructor]. }
    revert Hn Hf. generalize (getCurrentFiles (buildFileTree files) p). intros l Hn Hf.
    apply (NoDup_map_inv (fun q => last (parts q) "")).
    rewrite map_map. erewrite map_ext_in; [exact Hn|].
    intros f Hin. apply Hf. exact Hin. }
  split; [apply Hn|split; [apply Hp|]].
  unfold currentFiles, listing.
  eapply Permutation_NoDup.
  - apply Permutation_map. apply sort_perm.
  - apply NoDup_map_filter. apply Hp.
Qed.

Lemma nth_error_map_seq {A} (g : nat -> A) n i :
  nth_error (map g (seq 0 n)) i = if (i <? n)%nat then Some (g i) else None.
Proof.
  rewrite nth_error_map.
  destruct (Nat.ltb_spec i n) as [Hlt|Hge].
  - rewrite nth_error_nth' with (d := 0%nat) by (rewrite length_seq; exact Hlt).
    rewrite seq_nth by exact Hlt. reflexivity.
  - rewrite (proj2 (nth_error_None _ _)); [reflexivity|]. rewrite length_seq. exact Hge.
Qed.

Lemma descend_prefix q r t t' :
  descend (q ++ r) t = Some t' -> exists t'', descend q t = Some t''.
Proof.
  rewrite descend_app. destruct (descend q t); [eauto|discriminate].
Qed.

(** X6.  The breadcrumbs are the segments of the current path, each leading
    to the path of its first segments; when the current path resolves in the
    tree so does every breadcrumb, and the last breadcrumb shows the listing
    the explorer is already on. *)
Theorem breadcrumbs_lead_to_ancestors (t : Tree) (p : string) :
  List.length (breadcrumbs p) = List.length (parts p)
  /\ (forall i label target,
        nth_error (breadcrumbs p) i = Some (label, target) ->
        nth_error (parts p) i = Some label
        /\ parts target = firstn (S i) (parts p)
        /\ (forall t', descend (parts p) t = Some t' ->
              exists t'', descend (parts target) t = Some t''
                          /\ getCurrentFiles t target = values t'')
        /\ (S i = List.length (parts p) ->
              getCurrentFiles t target = getCurrentFiles t p
              /\ currentPath (navigateToPath target initial) = target)).
Proof.
  unfold breadcrumbs. cbv zeta. split; [rewrite length_map, length_seq; reflexivity|].
  intros i label target H. rewrite nth_error_map_seq in H.
  destruct (Nat.ltb_spec i (List.length (parts p))) as [Hlt|]; [|discriminate].
  injection H as Hl Ht.
  assert (Hparts : parts target = firstn (S i) (parts p)).
  { rewrite <- Ht. apply parts_join.
    pose proof (parts_segments p) as Hs.
    rewrite <- (firstn_skipn (S i) (parts p)) in Hs. apply Forall_app in Hs. tauto. }
  split; [|split; [exact Hparts|split]].
  - rewrite <- Hl. apply nth_error_nth'. exact Hlt.
  - intros t' Hd. rewrite <- (firstn_skipn (S i) (parts p)) in Hd.
    apply descend_prefix in Hd. destruct Hd as [t'' Hd].
    rewrite <- Hparts in Hd. exists t''. split; [exact Hd|].
    apply getCurrentFiles_resolved. exact Hd.
  - intros Hlast. split; [|reflexivity].
    rewrite Hlast, firstn_all in Hparts.
    assert (Hp : p <> "") by (intros ->; cbn in Hlt; lia).
    assert (Htg : target <> "").
    { intros E. rewrite E in Hparts. cbn in Hparts. rewrite <- Hparts in Hlt. cbn in Hlt. lia. }
    unfold getCurrentFiles. rewrite Hparts.
    apply truthy_nonempty in Hp, Htg. rewrite Hp, Htg. reflexivity.
Qed.

Lemma renamedPath_listed files p f newName :
  In f (getCurrentFiles (buildFileTree files) p) ->
  renamedPath (path f) newName = JS.join "/" (parts p ++ [newName]).
Proof.
  intros H. destruct (listed_entry files p f H) as (n & _ & _ & Hs & Hp).
  unfold renamedPath. rewrite Hp, split_join_segments.
  - rewrite removelast_last. reflexivity.
  - destruct (parts p); discriminate.
  - apply Forall_app. split; [apply parts_segments|]. constructor; [exact Hs|constructor].
Qed.

(** X7.  Renaming an entry listed for a directory moves it inside that
    directory: the one call is [moveFile] from its path to the shown path
    followed by the new name (the new name alone at the root).  A cancelled
    dialogue, an empty name and the old name make no call and change
    nothing; the clipboard is never updated by a rename. *)
Theorem rename_moves_within_the_listed_directory
  (files : list ServerFile) (p : string) (f : ServerFile) (st : State) :
  In f (getCurrentFiles (buildFileTree files) p) ->
  (forall props,
     handleRename props None f st = st
     /\ handleRename props (Some "") f st = st
     /\ handleRename props (Some (name f)) f st = st)
  /\ (forall newName, newName <> "" -> newName <> name f ->
        calls (handleRename page_props (Some newName) f st)
        = moveFile (path f) (JS.join "/" (parts p ++ [newName])) :: calls st
        /\ clipboard (handleRename page_props (Some newName) f st) = clipboard st
        /\ (parts p = [] -> renamedPath (path f) newName = newName)
        /\ (segment newName = true ->
              parts (renamedPath (path f) newName) = parts p ++ [newName])).
Proof.
  intros H. split.
  - intros props. unfold handleRename. cbn. rewrite String.eqb_refl, orb_true_r. auto.
  - intros newName Hne Hold. unfold handleRename.
    apply truthy_nonempty in Hne. apply String.eqb_neq in Hold.
    rewrite Hne, Hold. cbn. rewrite (renamedPath_listed files p f newName H).
    repeat split.
    + intros ->. reflexivity.
    + intros Hs. apply parts_join. apply Forall_app.
      split; [apply parts_segments|]. constructor; [exact Hs|constructor].
Qed.

Lemma rename_moves_within_the_listed_directory_witness :
  calls (handleRename page_props (Some "ops.json")
           (mkFile "world/banned.json" "banned.json" file (Some 2%Z) "t") initial)
  = [moveFile "world/banned.json" "world/ops.json"].
Proof.
  refine (proj1 (proj2 (rename_moves_within_the_listed_directory
    [mkFile "world/banned.json" "banned.json" file (Some 2%Z) "t"] "world/"
    (mkFile "world/banned.json" "banned.json" file (Some 2%Z) "t") initial _)
    "ops.json" _ _)).
  - left. reflexivity.
  - discriminate.
  - discriminate.
Defined.

End Segments.

Section MoreFiles.
Import Files Explorer FileActions PageActions.

Lemma walk_reads_kind_size_modified f g rest : forall seen t,
  type f = type g -> size f = size g -> modified f = modified g ->
  walk f seen rest t = walk g seen rest t.
Proof.
  induction rest as [|part rest IH]; intros seen t Ht Hs Hm; [reflexivity|].
  cbn. rewrite Ht, Hs, Hm.
  destruct (lookup part t) as [n|]; cbn; rewrite (IH _ _ Ht Hs Hm); reflexivity.
Qed.

(** X8.  The tree depends on a listing only through the segments of each
    path and the kind, size and modification time of each entry: the [name]
    field of an entry, and leading, trailing or doubled separators in its
    path, make no difference. *)
Theorem buildFileTree_reads_segments_kind_size_modified (files : list ServerFile) :
  (forall files',
     Forall2 (fun f g => parts (path f) = parts (path g) /\ type f = type g
                         /\ size f = size g /\ modified f = modified g) files files' ->
     buildFileTree files = buildFileTree files')
  /\ (forall rename : ServerFile -> string,
        buildFileTree
          (map (fun f => mkFile (JS.join "/" (parts (path f))) (rename f)
                                (type f) (size f) (modified f)) files)
        = buildFileTree files).
Proof.
  assert (H : forall files', Forall2 (fun f g => parts (path f) = parts (path g) /\ type f = type g
                         /\ size f = size g /\ modified f = modified g) files files' ->
     buildFileTree files = buildFileTree files').
  { intros files' HF. unfold buildFileTree. generalize (@nil (string * Node)).
    induction HF as [|f g l l' (Hp & Ht & Hs & Hm) _ IH]; intros t; [reflexivity|].
    cbn. rewrite Hp, (walk_reads_kind_size_modified f g _ _ _ Ht Hs Hm). apply IH. }
  split; [exact H|].
  intros rename. symmetry. apply H. clear H.
  induction files as [|f files IH]; cbn [map]; [constructor|].
  constructor; [|exact IH].
  cbn [path type size modified]. rewrite parts_join by apply parts_segments. auto.
Qed.

Lemma split_trailing sep a :
  exists l, l <> [] /\ JS.split sep (a ++ String sep "") = l ++ [""].
Proof.
  induction a as [|c a (l & Hne & IH)]; cbn.
  - rewrite Ascii.eqb_refl. exists [""]. split; [discriminate|reflexivity].
  - rewrite IH. destruct (Ascii.eqb c sep).
    + exists ("" :: l). split; [discriminate|reflexivity].
    + destruct l as [|h t]; [contradiction|].
      exists (String c h :: t). split; [discriminate|reflexivity].
Qed.

Lemma last_split_trailing sep a d : last (JS.split sep (a ++ String sep "")) d = "".
Proof.
  destruct (split_trailing sep a) as (l & _ & ->). apply last_last.
Qed.

(** X9.  A download never saves under an empty name: the name is the text
    after the last separator of the path, and the word [file] when that text
    is empty, as for a path that ends in a separator.  For an entry listed
    by the explorer it is the entry's name. *)
Theorem download_name_is_never_empty (p : string) :
  downloadName p <> ""
  /\ downloadName (p ++ "/") = "file"
  /\ (forall files shown f,
        In f (getCurrentFiles (buildFileTree files) shown) ->
        downloadName (path f) = name f
        /\ calls (handleDownload page_props f initial) = [downloadFile (path f)]).
Proof.
  split; [|split].
  - unfold downloadName. destruct (JS.truthy _) eqn:E; [|discriminate].
    apply truthy_nonempty. exact E.
  - unfold downloadName, JS.pop. rewrite last_split_trailing. reflexivity.
  - intros files shown f H. split; [|reflexivity].
    destruct (listed_entry files shown f H) as (n & _ & _ & Hs & Hp).
    unfold downloadName, JS.pop. rewrite Hp, split_join_segments.
    + rewrite last_last. apply andb_true_iff in Hs. destruct Hs as [Hs _].
      rewrite Hs. reflexivity.
    + destruct (parts shown); discriminate.
    + apply Forall_app. split; [apply parts_segments|]. constructor; [exact Hs|constructor].
Qed.

(** X10.  A click on a readable file opens the editor on it at once,
    editable, with the text the editor held before, and asks for the content;
    the answer, when it comes, replaces the text.  Saving after the answer
    writes the text of the editor, as last typed, to the path that was read,
    once: the editor is closed by the save, and a second save writes nothing.
    Saving before the answer, or after a read that failed, writes the text
    held before the click to the path that was clicked. *)
Theorem save_writes_the_opened_file_once
  (R : JSRuntime) (f : ServerFile) (content typed : string) (st : State) :
  isReadable f = true -> path f <> "" ->
  let clicked := handleFileClick_begin f st in
  let opened := handleFileClick_resolved content clicked in
  let saved := handleSave (setFileContent typed opened) in
  handleFileClick content f st = opened
  /\ (editingFile clicked = Some (path f) /\ editorReadOnly clicked = false
      /\ fileContent clicked = fileContent st
      /\ calls clicked = readFile (path f) :: calls st)
  /\ (fileContent opened = content /\ editorReadOnly opened = false
      /\ calls (handleSave opened) = writeFile (path f) content :: readFile (path f) :: calls st)
  /\ (calls saved = writeFile (path f) typed :: readFile (path f) :: calls st
      /\ editingFile saved = None /\ fileContent saved = "" /\ editorReadOnly saved = false
      /\ calls (handleSave saved) = calls saved)
  /\ (calls (handleSave clicked)
        = writeFile (path f) (fileContent st) :: readFile (path f) :: calls st
      /\ editingFile (handleFileClick_resolved content (handleSave clicked)) = None
      /\ fileContent (handleFileClick_resolved content (handleSave clicked)) = content).
Proof.
  intros Hr Hp. cbv zeta. apply truthy_nonempty in Hp.
  assert (Hf : type f = file).
  { unfold isReadable in Hr. destruct (type f); [discriminate|reflexivity]. }
  unfold handleFileClick, handleFileClick_begin, handleFileClick_resolved,
    handleSave, setFileContent.
  rewrite Hf, Hr. cbn. rewrite Hp. cbn.
  repeat split.
Qed.

Lemma save_writes_the_opened_file_once_witness :
  calls (handleSave (setFileContent "motd=Hello"
           (handleFileClick_resolved "motd=Hi"
              (handleFileClick_begin
                 (mkFile "server.properties" "server.properties" file (Some 9%Z) "t")
                 initial))))
  = [writeFile "server.properties" "motd=Hello"; readFile "server.properties"].
Proof.
  refine (proj1 (proj1 (proj2 (proj2 (proj2 (save_writes_the_opened_file_once ascii_runtime
    (mkFile "server.properties" "server.properties" file (Some 9%Z) "t")
    "motd=Hi" "motd=Hello" initial _ _)))))).
  - reflexivity.
  - discriminate.
Defined.

Lemma sorted_head_directory {R : JSRuntime} (L : LocaleOrder R) flt entries first rest f :
  listing flt entries = first :: rest -> In f (first :: rest) ->
  type f = directory -> type first = directory.
Proof.
  intros Hl Hin Hd.
  assert (Hs : StronglySorted (fun a b => (compareFiles a b <= 0)%Z) (first :: rest)).
  { rewrite <- Hl. apply sort_sorted;
      [apply (compareFiles_total L)|apply (compareFiles_trans L)]. }
  destruct Hin as [->|Hin]; [exact Hd|].
  inversion Hs as [|? ? _ Hall]; subst. rewrite Forall_forall in Hall.
  apply (compareFiles_order first f (Hall f Hin)). exact Hd.
Qed.

(** X11.  The archive button of the tool bar bundles exactly the entries the
    explorer shows, in the order shown, and the archive is named after the
    first of them, a directory whenever a directory is shown; with nothing
    shown the request is still made, with no path and no name.  From the
    context menu the archive holds the one entry and bears its path. *)
Theorem zip_bundles_what_is_shown
  (R : JSRuntime) (L : LocaleOrder R) (files : list ServerFile) (st : State) :
  let request := fst (handleZip files None st) in
  request = zipFiles (map path (currentFiles files st))
  /\ snd (zipBody (map path (currentFiles files st)))
     = option_map path (nth_error (currentFiles files st) 0)
  /\ (currentFiles files st = [] ->
        zipBody (map path (currentFiles files st)) = ([], None))
  /\ (forall f, In f (currentFiles files st) -> type f = directory ->
        exists first, nth_error (currentFiles files st) 0 = Some first
                      /\ type first = directory
                      /\ snd (zipBody (map path (currentFiles files st))) = Some (path first))
  /\ (forall target,
        fst (handleZip files (Some target) st) = zipFiles [path target]
        /\ zipBody [path target] = ([path target], Some (path target))).
Proof.
  cbv zeta. unfold handleZip, zipBody. cbn [fst snd].
  split; [reflexivity|split; [|split; [|split]]].
  - destruct (currentFiles files st); reflexivity.
  - intros ->. reflexivity.
  - intros f Hin Hd. unfold currentFiles in *.
    destruct (listing (filter_text st) _) as [|first rest] eqn:E; [contradiction|].
    exists first. cbn. repeat split.
    eapply (sorted_head_directory L); eauto.
  - intros target. split; reflexivity.
Qed.

Lemma zip_bundles_what_is_shown_witness :
  fst (handleZip
         [mkFile "b.txt" "b.txt" file None "t"; mkFile "a/c.txt" "c.txt" file None "t"]
         None initial)
  = zipFiles (map path (currentFiles
         [mkFile "b.txt" "b.txt" file None "t"; mkFile "a/c.txt" "c.txt" file None "t"]
         initial)).
Proof.
  exact (proj1 (zip_bundles_what_is_shown ascii_runtime ascii_order
    [mkFile "b.txt" "b.txt" file None "t"; mkFile "a/c.txt" "c.txt" file None "t"] initial)).
Defined.

End MoreFiles.

(** ** The page: screens, buttons, commands and the held socket *)

Section Screens.
Import Page PageActions.

Lemma lifecycle_keeps_snapshot flag a failure st :
  loading (lifecycle flag a failure st) = loading st
  /\ serverDetails (lifecycle flag a failure st) = serverDetails st.
Proof.
  unfold lifecycle. destruct (socket st) as [w|]; [|auto].
  destruct (JS.truthy (actionInProgress st)); [auto|].
  unfold ws_send.
  destruct (readyState w (setActionInProgress flag st)); cbn; auto.
Qed.

Lemma teardown_keeps_snapshot w st :
  loading (teardown w st) = loading st
  /\ serverDetails (teardown w st) = serverDetails st
  /\ error (teardown w st) = error st.
Proof.
  unfold teardown. destruct (reconnectTimeoutRef st) as [t|].
  - destruct (readyState w (clearTimeout t st)); cbn; auto.
  - destruct (readyState w st); cbn; auto.
Qed.

Lemma step_keeps_loading_until_info st ev st' :
  loading_until_info st -> step st ev = Some st' -> loading_until_info st'.
Proof.
  unfold loading_until_info. intros I Hs. destruct ev; cbn in Hs.
  - injection Hs as <-. unfold run_cleanup, effect.
    destruct (cleanup st) as [w|].
    + destruct (teardown_keeps_snapshot w st) as (H1 & H2 & _).
      destruct (socket (teardown w st)); [|destruct (isReconnectingRef (teardown w st))];
        cbn; rewrite H1, H2; exact I.
    + destruct (socket st); [|destruct (isReconnectingRef st)]; cbn; exact I.
  - injection Hs as <-. unfold run_cleanup.
    destruct (cleanup st) as [w|]; cbn; [|exact I].
    destruct (teardown_keeps_snapshot w st) as (H1 & H2 & _). rewrite H1, H2. exact I.
  - destruct (readyState w st); try discriminate. injection Hs as <-. exact I.
  - destruct (readyState w st); try discriminate. injection Hs as <-.
    destruct frame as [[]|]; cbn; try exact I.
    + unfold ws_send. destruct (readyState w st); cbn; exact I.
    + assert (H : loading st = true <-> option_map (setStatus d) (serverDetails st) = None)
        by (destruct (serverDetails st); cbn in *; [split; [intros H; apply I in H|]; discriminate|exact I]).
      destruct ((d =? "online") || (d =? "offline")); cbn; exact H.
    + destruct (serverDetails st); cbn in *; [split; [intros H; apply I in H|]; discriminate|exact I].
    + split; discriminate.
  - assert (E : st' = onclose code (setReadyState w CLOSED st))
      by (destruct (readyState w st); congruence).
    rewrite E. unfold onclose. cbn.
    destruct (negb (code =? 1000)%Z && negb (isReconnectingRef st)); cbn; exact I.
  - destruct (existsb (Nat.eqb t) (timers st)); [|discriminate].
    injection Hs as <-. exact I.
  - injection Hs as <-.
    destruct (lifecycle_keeps_snapshot "starting" start "Failed to start server" st) as [H1 H2].
    unfold startServer. rewrite H1, H2. exact I.
  - injection Hs as <-.
    destruct (lifecycle_keeps_snapshot "stopping" stop "Failed to stop server" st) as [H1 H2].
    unfold stopServer. rewrite H1, H2. exact I.
  - injection Hs as <-.
    destruct (lifecycle_keeps_snapshot "restarting" restart "Failed to restart server" st) as [H1 H2].
    unfold restartServer. rewrite H1, H2. exact I.
  - injection Hs as <-. exact I.
  - injection Hs as <-. destruct ok; exact I.
Qed.

Lemma run_keeps_loading_until_info evs : forall st st',
  loading_until_info st -> run evs st = Some st' -> loading_until_info st'.
Proof.
  induction evs as [|ev evs IH]; intros st st' I Hr; cbn in Hr.
  - injection Hr as <-. exact I.
  - destruct (step st ev) as [s|] eqn:E; [|discriminate].
    eapply IH; [|exact Hr]. eapply step_keeps_loading_until_info; eauto.
Qed.

(** X12.  In every state the page can reach, the server snapshot is absent
    exactly while the page is loading: the loader is shown until the first
    info message, whatever else arrives, and the main screen always has a
    snapshot.  A status or player message that arrives before the first info
    is lost; the error screen only ever shows a message the page has set,
    never the fallback text for a missing snapshot. *)
Theorem loader_until_first_info (evs : list Event) (st : State) :
  run evs initial = Some st ->
  (loading st = true <-> serverDetails st = None)
  /\ (render st = Loader <-> serverDetails st = None)
  /\ (forall message, render st = ErrorScreen message ->
        message = error st /\ message <> "" /\ serverDetails st <> None)
  /\ (serverDetails st = None ->
        forall w d players,
          serverDetails (onmessage w (Some (status_msg d)) st) = None
          /\ serverDetails (onmessage w (Some (player_update players)) st) = None
          /\ render (onmessage w (Some (error_msg d)) st) = Loader).
Proof.
  intros Hr.
  assert (I : loading_until_info st).
  { eapply run_keeps_loading_until_info; [|exact Hr]. split; reflexivity. }
  unfold loading_until_info in I. split; [exact I|split; [|split]].
  - unfold render. destruct (loading st) eqn:Hl.
    + split; [intros _; apply I; reflexivity|reflexivity].
    + destruct (serverDetails st) as [d|] eqn:Hd.
      * destruct (JS.truthy (error st)); split; discriminate.
      * assert (H : false = true) by (apply I; reflexivity). discriminate.
  - intros message. unfold render. destruct (loading st) eqn:Hl; [discriminate|].
    destruct (serverDetails st) as [d|] eqn:Hd.
    + destruct (JS.truthy (error st)) eqn:He; [|discriminate].
      intros [= <-]. apply truthy_nonempty in He. repeat split; auto. discriminate.
    + assert (H : false = true) by (apply I; reflexivity). discriminate.
  - intros Hd w d players.
    assert (Hl : loading st = true) by (apply I; exact Hd).
    split; [|split].
    + cbn. rewrite Hd. destruct ((d =? "online") || (d =? "offline")); reflexivity.
    + cbn. rewrite Hd. reflexivity.
    + unfold render. cbn. rewrite Hl. reflexivity.
Qed.

Lemma loader_until_first_info_witness :
  match run [RunEffect; WsOpen 0; WsMessage 0 (Some (status_msg "online"))] initial with
  | Some st => render st = Loader
  | None => True
  end.
Proof.
  destruct (run [RunEffect; WsOpen 0; WsMessage 0 (Some (status_msg "online"))] initial)
    as [st|] eqn:E; [|exact I].
  apply (proj1 (proj2 (loader_until_first_info _ st E))).
  vm_compute in E. injection E as <-. reflexivity.
Defined.

Lemma lifecycle_keeps_error flag a failure st :
  failure <> "" -> error st <> "" -> error (lifecycle flag a failure st) <> "".
Proof.
  intros Hf He. unfold lifecycle. destruct (socket st) as [w|]; [|exact He].
  destruct (JS.truthy (actionInProgress st)); [exact He|].
  unfold ws_send.
  destruct (readyState w (setActionInProgress flag st)); cbn; auto.
Qed.

Lemma step_keeps_error st ev st' :
  step st ev = Some st' -> error st <> "" -> error st' <> "".
Proof.
  intros Hs He. destruct ev; cbn in Hs.
  - injection Hs as <-. unfold run_cleanup, effect.
    destruct (cleanup st) as [w|].
    + destruct (teardown_keeps_snapshot w st) as (_ & _ & H3).
      destruct (socket (teardown w st)); [|destruct (isReconnectingRef (teardown w st))];
        cbn; rewrite H3; exact He.
    + destruct (socket st); [|destruct (isReconnectingRef st)]; cbn; exact He.
  - injection Hs as <-. unfold run_cleanup.
    destruct (cleanup st) as [w|]; cbn; [|exact He].
    destruct (teardown_keeps_snapshot w st) as (_ & _ & H3). rewrite H3. exact He.
  - destruct (readyState w st); try discriminate. injection Hs as <-. exact He.
  - destruct (readyState w st); try discriminate. injection Hs as <-.
    destruct frame as [[]|]; cbn; try exact He.
    + destruct (JS.truthy d) eqn:Ed; [apply truthy_nonempty; exact Ed|discriminate].
    + unfold ws_send. destruct (readyState w st); cbn; exact He.
    + destruct ((d =? "online") || (d =? "offline")); cbn; exact He.
  - assert (E : st' = onclose code (setReadyState w CLOSED st))
      by (destruct (readyState w st); congruence).
    rewrite E. unfold onclose. cbn.
    destruct (negb (code =? 1000)%Z && negb (isReconnectingRef st)); cbn; exact He.
  - destruct (existsb (Nat.eqb t) (timers st)); [|discriminate].
    injection Hs as <-. exact He.
  - injection Hs as <-. apply lifecycle_keeps_error; [discriminate|exact He].
  - injection Hs as <-. apply lifecycle_keeps_error; [discriminate|exact He].
  - injection Hs as <-. apply lifecycle_keeps_error; [discriminate|exact He].
  - injection Hs as <-. exact He.
  - injection Hs as <-. destruct ok; cbn; [exact He|discriminate].
Qed.

(** X13.  An error is never cleared: once the page holds an error message,
    no event empties it, so after the first info the page stays on the error
    screen and never shows the main screen again. *)
Theorem error_screen_is_final (evs : list Event) (st st' : State) :
  run evs st = Some st' -> error st <> "" ->
  error st' <> ""
  /\ (forall d, render st' <> Main d)
  /\ (loading st' = false -> exists message, render st' = ErrorScreen message /\ message <> "").
Proof.
  intros Hr He.
  assert (He' : error st' <> "").
  { revert st Hr He. induction evs as [|ev evs IH]; intros st Hr He; cbn in Hr.
    - injection Hr as <-. exact He.
    - destruct (step st ev) as [s|] eqn:E; [|discriminate].
      eapply IH; [exact Hr|]. eapply step_keeps_error; eauto. }
  split; [exact He'|].
  pose proof He' as Ht. apply truthy_nonempty in Ht.
  unfold render. rewrite Ht. split.
  - intros d. destruct (loading st'); [discriminate|].
    destruct (serverDetails st'); discriminate.
  - intros ->. destruct (serverDetails st'); eauto.
Qed.

Lemma error_screen_is_final_witness :
  match run [RunEffect; WsOpen 0; WsMessage 0 (Some ping)] (setError "disk full" initial) with
  | Some st' => error st' <> ""
  | None => True
  end.
Proof.
  destruct (run [RunEffect; WsOpen 0; WsMessage 0 (Some ping)] (setError "disk full" initial))
    as [st'|] eqn:E; [|exact I].
  apply (proj1 (error_screen_is_final _ _ st' E ltac:(discriminate))).
Defined.

(** X14.  Whatever the status, the start and stop buttons are never both
    enabled: stop and restart are enabled exactly when the status is
    [online], start exactly when it is none of [online], [starting] and
    [stopping], so that while the server starts or stops every button is
    disabled. *)
Theorem buttons_follow_the_status (d : ServerDetails) :
  (stopDisabled (controls d) = false <-> status d = "online")
  /\ (restartDisabled (controls d) = false <-> status d = "online")
  /\ (startDisabled (controls d) = false <->
        status d <> "online" /\ status d <> "starting" /\ status d <> "stopping")
  /\ (startDisabled (controls d) = true \/ stopDisabled (controls d) = true)
  /\ (status d = "starting" \/ status d = "stopping" ->
        startDisabled (controls d) = true /\ stopDisabled (controls d) = true
        /\ restartDisabled (controls d) = true).
Proof.
  unfold controls, ServerControls. cbn.
  destruct (String.eqb_spec (status d) "online") as [E1|E1];
  destruct (String.eqb_spec (status d) "starting") as [E2|E2];
  destruct (String.eqb_spec (status d) "stopping") as [E3|E3];
  cbn; repeat split; try tauto; try discriminate; try congruence;
  try (intros [H|H]; congruence); try (intros (? & ? & ?); congruence).
Qed.

End Screens.

Section Commands.
Import Page PageActions CommandLine.

Lemma trimEnd_empty s : trimEnd s = "" <-> blank s = true.
Proof.
  induction s as [|c s IH]; cbn; [tauto|].
  destruct (trimEnd s) eqn:E.
  - destruct (isWhiteSpace c); cbn.
    + rewrite <- IH. tauto.
    + split; discriminate.
  - rewrite andb_true_iff, <- IH. split; [discriminate|]. intros [_ H]. discriminate.
Qed.

Lemma blank_trimStart s : blank (trimStart s) = blank s.
Proof.
  induction s as [|c s IH]; cbn; [reflexivity|].
  destruct (isWhiteSpace c) eqn:E; cbn; [exact IH|]. rewrite E. reflexivity.
Qed.

Lemma trim_blank s : JS.truthy (trim s) = negb (blank s).
Proof.
  unfold JS.truthy, trim. rewrite <- (blank_trimStart s).
  destruct (String.eqb_spec (trimEnd (trimStart s)) "") as [E|E].
  - apply trimEnd_empty in E. rewrite E. reflexivity.
  - destruct (blank (trimStart s)) eqn:B; [|reflexivity].
    apply trimEnd_empty in B. contradiction.
Qed.

(** X15.  A command is sent exactly when it holds a character that is not
    white space, the page holds a socket and the socket is open: then one
    command frame carries the text as typed, white space included, and the
    input is emptied.  A blank command, a missing socket or a socket that is
    not open send nothing and keep the input; in no case is the lifecycle
    flag read or changed. *)
Theorem command_is_sent_when_typed_and_connected (st : State) (typed : string) :
  (blank typed = true -> submit (st, typed) = (st, typed))
  /\ (socket st = None -> submit (st, typed) = (st, typed))
  /\ (forall w, socket st = Some w -> readyState w st <> OPEN ->
        submit (st, typed) = (st, typed))
  /\ (forall w, blank typed = false -> socket st = Some w -> readyState w st = OPEN ->
        snd (submit (st, typed)) = ""
        /\ sent (fst (submit (st, typed))) = (w, command typed) :: sent st
        /\ actionInProgress (fst (submit (st, typed))) = actionInProgress st
        /\ consoleOutput (fst (submit (st, typed))) = consoleOutput st).
Proof.
  unfold submit, handleSubmit. cbn [snd]. rewrite trim_blank.
  split; [|split; [|split]].
  - intros ->. reflexivity.
  - intros Hs. destruct (negb (blank typed)); [|reflexivity].
    unfold sendWebSocketCommand. cbn [fst]. rewrite Hs. reflexivity.
  - intros w Hs Hr. destruct (negb (blank typed)); [|reflexivity].
    unfold sendWebSocketCommand. cbn [fst]. rewrite Hs.
    destruct (readyState w st); try reflexivity. contradiction.
  - intros w Hb Hs Hr. rewrite Hb. cbn.
    unfold sendWebSocketCommand, ws_send. cbn [fst]. rewrite Hs, Hr. cbn. auto.
Qed.

End Commands.

Section Authorization.
Import Api.

Lemma prefix_app p s : String.prefix p (p ++ s) = true.
Proof.
  induction p as [|c p IH]; cbn; [destruct s; reflexivity|].
  destruct (ascii_dec c c); [exact IH|contradiction].
Qed.

(** X16.  A request carries an [Authorization] header exactly when a token
    that is not empty is stored; the header always starts with [Bearer ],
    and a token that already does is sent as it is, so the header is a fixed
    point of the interceptor.  The token the login page stores is sent as it
    is only when the token type it was given is spelt [Bearer]; any other
    spelling is kept behind the prefix.  After a response with status 401 or
    403 the token is gone and the next request carries no header; any other
    failure leaves the token and the location alone. *)
Theorem bearer_header_and_token_removal (tok : option string) :
  (authorization tok = None <-> tok = None \/ tok = Some "")
  /\ (forall h, authorization tok = Some h ->
        startsWith h "Bearer " = true /\ authorization (Some h) = Some h)
  /\ (forall access, authorization (Some (storedToken "Bearer" access))
                     = Some ("Bearer " ++ access)%string)
  /\ (forall token_type access,
        startsWith (storedToken token_type access) "Bearer " = false ->
        authorization (Some (storedToken token_type access))
        = Some ("Bearer " ++ token_type ++ " " ++ access)%string)
  /\ (forall b s, s = 401%Z \/ s = 403%Z ->
        authorization (token (onResponseError (Some s) b)) = None
        /\ href (onResponseError (Some s) b) = "/login")
  /\ (forall b s, s <> 401%Z -> s <> 403%Z ->
        onResponseError (Some s) b = b /\ onResponseError None b = b).
Proof.
  split; [|split; [|split; [|split; [|split]]]].
  - unfold authorization. destruct tok as [t|]; [|tauto].
    destruct (JS.truthy t) eqn:E.
    + split; [discriminate|]. intros [H|H]; [discriminate|].
      injection H as ->. discriminate.
    + split; [|reflexivity]. intros _. right. f_equal.
      unfold JS.truthy in E. destruct (String.eqb_spec t ""); [assumption|discriminate].
  - intros h. unfold authorization. destruct tok as [t|]; [|discriminate].
    destruct (JS.truthy t) eqn:E; [|discriminate].
    destruct (startsWith t "Bearer ") eqn:P; intros [= <-].
    + rewrite E, P. auto.
    + assert (Hp : startsWith ("Bearer " ++ t) "Bearer " = true)
        by (apply (prefix_app "Bearer " t)).
      split; [exact Hp|]. unfold authorization.
      cbn [String.append] in Hp. rewrite Hp. reflexivity.
  - intros access. unfold authorization, storedToken.
    change ("Bearer" ++ " " ++ access)%string with ("Bearer " ++ access)%string.
    assert (Hp : startsWith ("Bearer " ++ access) "Bearer " = true)
      by (apply (prefix_app "Bearer " access)).
    rewrite Hp. reflexivity.
  - intros token_type access Hp. unfold authorization. rewrite Hp.
    assert (Ht : JS.truthy (storedToken token_type access) = true).
    { unfold storedToken. destruct token_type; reflexivity. }
    rewrite Ht. reflexivity.
  - intros b s [-> | ->]; split; reflexivity.
  - intros b s H1 H2. unfold onResponseError.
    apply Z.eqb_neq in H1, H2. rewrite H1, H2. auto.
Qed.

End Authorization.

Section HeldSocket.
Import Page PageActions.

Lemma nth_replace_same {A} n (v d : A) l :
  (n < List.length l)%nat -> nth n (replace_nth n v l) d = v.
Proof.
  revert n. induction l as [|a l IH]; intros [|n] H; cbn in *; try lia; auto.
  apply IH. lia.
Qed.

Lemma nth_replace_other {A} n m (v d : A) l :
  n <> m -> nth m (replace_nth n v l) d = nth m l d.
Proof.
  revert n m. induction l as [|a l IH]; intros [|n] [|m] H; cbn; auto; try congruence.
Qed.

Lemma readyState_in_range w st r :
  readyState w st = r -> r <> CLOSED -> (w < List.length (sockets st))%nat.
Proof.
  unfold readyState. intros H Hr.
  destruct (Nat.lt_ge_cases w (List.length (sockets st))) as [|Hge]; [assumption|].
  rewrite nth_overflow in H by exact Hge. congruence.
Qed.

Lemma readyState_set_same w r st :
  (w < List.length (sockets st))%nat -> readyState w (setReadyState w r st) = r.
Proof. intros H. unfold readyState, setReadyState. apply nth_replace_same. exact H. Qed.

Lemma readyState_set_other w w' r st :
  w <> w' -> readyState w (setReadyState w' r st) = readyState w st.
Proof.
  intros H. unfold readyState, setReadyState. apply nth_replace_other. congruence.
Qed.

Lemma live_teardown w st : held_socket_is_live st -> held_socket_is_live (teardown w st).
Proof.
  intros I v Hv. unfold teardown in *.
  set (st1 := match reconnectTimeoutRef st with Some t => clearTimeout t st | None => st end) in *.
  assert (H1 : socket st1 = socket st) by (unfold st1; destruct (reconnectTimeoutRef st); reflexivity).
  assert (H2 : forall u, readyState u st1 = readyState u st)
    by (intros u; unfold st1; destruct (reconnectTimeoutRef st); reflexivity).
  assert (H3 : sockets st1 = sockets st) by (unfold st1; destruct (reconnectTimeoutRef st); reflexivity).
  destruct (readyState w st1) eqn:E.
  - rewrite H2. apply I. rewrite <- H1. exact Hv.
  - assert (Hs : socket st = Some v) by (rewrite <- H1; exact Hv).
    destruct (Nat.eq_dec v w) as [->|Hne].
    + right. apply readyState_set_same.
      eapply readyState_in_range; [exact E|discriminate].
    + rewrite readyState_set_other, H2 by exact Hne. apply I. exact Hs.
  - rewrite H2. apply I. rewrite <- H1. exact Hv.
  - rewrite H2. apply I. rewrite <- H1. exact Hv.
Qed.

Lemma live_fields st st' :
  socket st' = socket st -> sockets st' = sockets st ->
  held_socket_is_live st -> held_socket_is_live st'.
Proof.
  unfold held_socket_is_live, readyState. intros -> ->. auto.
Qed.

Lemma lifecycle_keeps_sockets flag a failure st :
  socket (lifecycle flag a failure st) = socket st
  /\ sockets (lifecycle flag a failure st) = sockets st.
Proof.
  unfold lifecycle. destruct (socket st) as [w|] eqn:Hs; [|auto].
  destruct (JS.truthy (actionInProgress st)); [auto|].
  unfold ws_send.
  destruct (readyState w (setActionInProgress flag st)); cbn; auto.
Qed.

Lemma onmessage_keeps_sockets w frame st :
  socket (onmessage w frame st) = socket st
  /\ sockets (onmessage w frame st) = sockets st.
Proof.
  destruct frame as [[]|]; cbn; auto.
  - unfold ws_send. destruct (readyState w st); cbn; auto.
  - destruct ((d =? "online") || (d =? "offline")); cbn; auto.
Qed.

Lemma live_step st ev st' :
  held_socket_is_live st -> step st ev = Some st' -> held_socket_is_live st'.
Proof.
  intros I Hs. destruct ev; cbn in Hs.
  - injection Hs as <-.
    assert (I1 : held_socket_is_live (run_cleanup st))
      by (unfold run_cleanup; destruct (cleanup st); [apply live_teardown|]; exact I).
    revert I1. generalize (run_cleanup st). intros s I1. unfold effect.
    destruct (socket s) as [v|] eqn:Hv.
    + eapply live_fields; [| |exact I1]; reflexivity.
    + destruct (isReconnectingRef s).
      * eapply live_fields; [| |exact I1]; reflexivity.
      * intros u Hu. cbn in Hu. congruence.
  - injection Hs as <-.
    assert (I1 : held_socket_is_live (run_cleanup st))
      by (unfold run_cleanup; destruct (cleanup st); [apply live_teardown|]; exact I).
    eapply live_fields; [| |exact I1]; reflexivity.
  - destruct (readyState w st) eqn:E; try discriminate. injection Hs as <-.
    intros u Hu. cbn in Hu. injection Hu as <-.
    left. change (readyState w (onopen w (setReadyState w OPEN st)))
            with (readyState w (setReadyState w OPEN st)).
    apply readyState_set_same.
    eapply readyState_in_range; [exact E|discriminate].
  - destruct (readyState w st); try discriminate. injection Hs as <-.
    destruct (onmessage_keeps_sockets w frame st) as [H1 H2].
    eapply live_fields; eauto.
  - assert (E : st' = onclose code (setReadyState w CLOSED st))
      by (destruct (readyState w st); congruence).
    rewrite E. intros u Hu. exfalso. revert Hu. unfold onclose. cbn.
    destruct (negb (code =? 1000)%Z && negb (isReconnectingRef st)); cbn; discriminate.
  - destruct (existsb (Nat.eqb t) (timers st)); [|discriminate].
    injection Hs as <-. intros u Hu. cbn in Hu. discriminate.
  - injection Hs as <-.
    destruct (lifecycle_keeps_sockets "starting" start "Failed to start server" st) as [H1 H2].
    eapply live_fields; eauto.
  - injection Hs as <-.
    destruct (lifecycle_keeps_sockets "stopping" stop "Failed to stop server" st) as [H1 H2].
    eapply live_fields; eauto.
  - injection Hs as <-.
    destruct (lifecycle_keeps_sockets "restarting" restart "Failed to restart server" st) as [H1 H2].
    eapply live_fields; eauto.
  - injection Hs as <-. exact I.
  - injection Hs as <-. destruct ok; exact I.
Qed.

Lemma run_keeps_live evs : forall st st',
  held_socket_is_live st -> run evs st = Some st' -> held_socket_is_live st'.
Proof.
  induction evs as [|ev evs IH]; intros st st' I Hr; cbn in Hr.
  - injection Hr as <-. exact I.
  - destruct (step st ev) as [s|] eqn:E; [|discriminate].
    eapply IH; [|exact Hr]. eapply live_step; eauto.
Qed.

(** X17.  In every state the page can reach, the socket it holds is open or
    closing, never connecting and never closed.  So sending a lifecycle
    action never throws: the branch that reports a failed send and clears
    the action flag is never taken, and an accepted action leaves its flag
    set; on an open socket its frame is sent, on a closing one it is
    dropped. *)
Theorem held_socket_never_throws (evs : list Event) (st : State) :
  run evs initial = Some st ->
  (forall w, socket st = Some w -> readyState w st = OPEN \/ readyState w st = CLOSING)
  /\ error (startServer st) = error st
  /\ error (stopServer st) = error st
  /\ error (restartServer st) = error st
  /\ (forall w, socket st = Some w -> actionInProgress st = "" ->
        actionInProgress (startServer st) = "starting"
        /\ (readyState w st = OPEN -> sent (startServer st) = (w, start) :: sent st)
        /\ (readyState w st = CLOSING -> sent (startServer st) = sent st)).
Proof.
  intros Hr.
  assert (I : held_socket_is_live st).
  { apply (run_keeps_live evs initial st); [intros w H; discriminate|exact Hr]. }
  assert (Hnothrow : forall flag a failure,
            error (lifecycle flag a failure st) = error st).
  { intros flag a failure. unfold lifecycle.
    destruct (socket st) as [w|] eqn:Hs; [|reflexivity].
    destruct (JS.truthy (actionInProgress st)); [reflexivity|].
    unfold ws_send.
    change (readyState w (setActionInProgress flag st)) with (readyState w st).
    destruct (I w Hs) as [-> | ->]; reflexivity. }
  split; [exact I|].
  repeat (split; [apply Hnothrow|]).
  intros w Hs Hf.
  destruct (I w Hs) as [E|E]; unfold startServer, lifecycle, ws_send;
    rewrite Hs, Hf; cbn; pose proof E as E'; unfold readyState in E'; rewrite E'; cbn;
    repeat split; intros; try congruence; auto.
Qed.

Lemma held_socket_never_throws_witness :
  match run [RunEffect; WsOpen 0; RunEffect] initial with
  | Some st => error (startServer st) = error st
  | None => True
  end.
Proof.
  destruct (run [RunEffect; WsOpen 0; RunEffect] initial) as [st|] eqn:E; [|exact I].
  apply (proj1 (proj2 (held_socket_never_throws _ st E))).
Defined.

End HeldSocket.

Section CutAndPaste.
Import Files Explorer FileActions.

Lemma basename_listed files p f :
  In f (getCurrentFiles (buildFileTree files) p) -> basename (path f) = name f.
Proof.
  intros H. destruct (listed_entry files p f H) as (n & _ & _ & Hs & Hp).
  unfold basename, JS.pop. rewrite Hp, split_join_segments.
  - apply last_last.
  - destruct (parts p); discriminate.
  - apply Forall_app. split; [apply parts_segments|]. constructor; [exact Hs|constructor].
Qed.

Lemma listed_path_nonempty files p f :
  In f (getCurrentFiles (buildFileTree files) p) -> path f <> "".
Proof.
  intros H. destruct (listed_entry files p f H) as (n & _ & _ & Hs & Hp).
  rewrite Hp. apply segments_nonempty_join.
  - destruct (parts p); discriminate.
  - apply Forall_app. split; [apply parts_segments|]. constructor; [exact Hs|constructor].
Qed.

(** X18.  Cutting a listed entry, opening a listed directory and pasting
    there asks, with one call, to move the entry into that directory under
    its own name; when the move succeeds the clipboard is emptied, when it
    fails the clipboard still holds the cut.  Copying instead asks to copy it
    there and keeps the clipboard either way.  Moving through directories in
    between does not touch the clipboard, and pasting on the directory from
    its menu has the same target. *)
Theorem cut_navigate_paste_moves_into_the_directory
  (R : JSRuntime) (files : list ServerFile) (p p' content : string)
  (f d : ServerFile) (st : State) :
  In f (getCurrentFiles (buildFileTree files) p) ->
  In d (getCurrentFiles (buildFileTree files) p') ->
  type d = directory ->
  let there := fun s => handleFileClick content d s in
  (forall o,
     calls (handlePaste page_props o None (there (handleCut f st)))
       = moveFile (path f) (path d ++ "/" ++ name f) :: calls st
     /\ calls (handlePaste page_props o None (there (handleCopy f st)))
       = copyFile (path f) (path d ++ "/" ++ name f) :: calls st
     /\ clipboard (handlePaste page_props o None (there (handleCopy f st)))
       = mkClipboard (Some copy) (Some (path f))
     /\ calls (handlePaste page_props o (Some (path d)) (handleCut f st))
       = moveFile (path f) (path d ++ "/" ++ name f) :: calls st)
  /\ clipboard (handlePaste page_props resolves None (there (handleCut f st)))
     = mkClipboard None None
  /\ clipboard (handlePaste page_props rejects None (there (handleCut f st)))
     = mkClipboard (Some cut) (Some (path f))
  /\ clipboard (there (handleCut f st)) = mkClipboard (Some cut) (Some (path f)).
Proof.
  intros Hf Hd Hdir. cbv zeta.
  pose proof (basename_listed files p f Hf) as Hb.
  pose proof (listed_path_nonempty files p f Hf) as Hpf.
  pose proof (listed_path_nonempty files p' d Hd) as Hpd.
  apply truthy_nonempty in Hpf, Hpd.
  unfold handlePaste, handleFileClick, handleCut, handleCopy, pasteTarget.
  rewrite Hdir. cbn. rewrite Hpf, Hpd, Hb. cbn.
  split; [intros []; cbn; repeat split|repeat split].
Qed.

Lemma cut_navigate_paste_moves_into_the_directory_witness :
  calls (handlePaste page_props rejects None
           (handleFileClick "" (mkFile "backups" "backups" directory None "t")
              (handleCut (mkFile "world/level.dat" "level.dat" file (Some 3%Z) "t") initial)))
  = [moveFile "world/level.dat" "backups/level.dat"].
Proof.
  refine (proj1 (proj1 (cut_navigate_paste_moves_into_the_directory ascii_runtime
    [mkFile "world/level.dat" "level.dat" file (Some 3%Z) "t";
     mkFile "backups/" "backups" directory None "t"]
    "world" "" ""
    (mkFile "world/level.dat" "level.dat" file (Some 3%Z) "t")
    (mkFile "backups" "backups" directory None "t") initial _ _ _) rejects)).
  - left. reflexivity.
  - right. left. reflexivity.
  - reflexivity.
Defined.

End CutAndPaste.

(** ** The listing as the code computes it *)

Section CodeListing.
Import Files Explorer.

Lemma partition_perm {A} (keep : A -> bool) l :
  Permutation (filter keep l ++ filter (fun x => negb (keep x)) l) l.
Proof.
  induction l as [|x l IH]; cbn; [constructor|].
  destruct (keep x); cbn.
  - constructor. exact IH.
  - symmetry. apply Permutation_cons_app. symmetry. exact IH.
Qed.

Lemma ownKeys_perm t : Permutation (PlainObject.ownKeys t) t.
Proof.
  unfold PlainObject.ownKeys. etransitivity; [|apply (partition_perm PlainObject.isIndex)].
  apply Permutation_app_tail. symmetry. apply sort_perm.
Qed.

Lemma values_perm t : Permutation (PlainObject.values t) (values t).
Proof. unfold PlainObject.values, values. apply Permutation_map. apply ownKeys_perm. Qed.

Lemma filter_all {A} (keep : A -> bool) l :
  (forall x, In x l -> keep x = true) -> filter keep l = l.
Proof.
  induction l as [|x l IH]; intros H; cbn; [reflexivity|].
  rewrite (H x (or_introl eq_refl)), IH; [reflexivity|].
  intros y Hy. apply H. right. exact Hy.
Qed.

Lemma filter_none {A} (keep : A -> bool) l :
  (forall x, In x l -> keep x = false) -> filter keep l = [].
Proof.
  induction l as [|x l IH]; intros H; cbn; [reflexivity|].
  rewrite (H x (or_introl eq_refl)). apply IH.
  intros y Hy. apply H. right. exact Hy.
Qed.

(** Without array indices among the keys, [Object.values] follows the order
    of insertion. *)
Lemma values_insertion_order t :
  (forall k n, In (k, n) t -> PlainObject.arrayIndex k = None) -> PlainObject.values t = values t.
Proof.
  intros H. unfold PlainObject.values, values, PlainObject.ownKeys.
  rewrite filter_none, filter_all; [reflexivity| |].
  - intros [k n] Hin. unfold PlainObject.isIndex. cbn. rewrite (H k n Hin). reflexivity.
  - intros [k n] Hin. unfold PlainObject.isIndex. cbn. rewrite (H k n Hin). reflexivity.
Qed.

Lemma descend_own ps : forall t t',
  PlainObject.descend ps t = Some (Some t') -> descend ps t = Some t'.
Proof.
  induction ps as [|k ps IH]; intros t t'; cbn.
  - congruence.
  - unfold PlainObject.get. destruct (lookup k t) as [n|]; [apply IH|].
    destruct (PlainObject.inherits k); discriminate.
Qed.

Lemma descend_missing ps : forall t,
  PlainObject.descend ps t = Some None -> descend ps t = None.
Proof.
  induction ps as [|k ps IH]; intros t; cbn.
  - discriminate.
  - unfold PlainObject.get. destruct (lookup k t) as [n|]; [apply IH|].
    destruct (PlainObject.inherits k); [discriminate|reflexivity].
Qed.

Lemma descend_plain ps : forall t,
  PlainObject.plain ps = true -> PlainObject.descend ps t <> None.
Proof.
  induction ps as [|k ps IH]; intros t Hp; cbn; [discriminate|].
  change (negb (PlainObject.inherits k) && PlainObject.plain ps = true) in Hp.
  apply andb_true_iff in Hp. destruct Hp as [Hk Hp]. apply negb_true_iff in Hk.
  unfold PlainObject.get. destruct (lookup k t) as [n|]; [apply IH; exact Hp|].
  rewrite Hk. discriminate.
Qed.

(** What the code lists is what the listing over own keys holds, but for
    the order. *)
Lemma getCurrentFiles_perm t p l :
  PlainObject.getCurrentFiles t p = Some l -> Permutation l (getCurrentFiles t p).
Proof.
  unfold PlainObject.getCurrentFiles, getCurrentFiles.
  destruct (negb (JS.truthy p)).
  - intros [= <-]. apply values_perm.
  - destruct (PlainObject.descend (parts p) t) as [[t'|]|] eqn:E; [| |discriminate].
    + intros [= <-]. rewrite (descend_own _ _ _ E). apply values_perm.
    + intros [= <-]. rewrite (descend_missing _ _ E). constructor.
Qed.

Lemma lookup_In k n t : lookup k t = Some n -> In (k, n) t.
Proof.
  induction t as [|[k' n'] t IH]; cbn; [discriminate|].
  destruct (String.eqb_spec k k') as [->|_]; [intros [= ->]; left; reflexivity|].
  intros H. right. apply IH. exact H.
Qed.

Lemma getCurrentFiles_at t p :
  getCurrentFiles t p =
  match descend (parts p) t with Some t' => values t' | None => [] end.
Proof.
  unfold getCurrentFiles. destruct (JS.truthy p) eqn:E; [reflexivity|].
  cbn. unfold JS.truthy in E. apply negb_false_iff in E. apply String.eqb_eq in E.
  subst p. reflexivity.
Qed.

(** Every entry the code lists is listed over own keys, with the same
    fields. *)
Lemma getCurrentFiles_among files t p l f :
  PlainObject.buildFileTree files = Some t ->
  PlainObject.getCurrentFiles t p = Some l -> In f l ->
  In f (getCurrentFiles (buildFileTree files) p).
Proof.
  intros Hb Hl Hin.
  apply (Permutation_in _ (getCurrentFiles_perm t p l Hl)) in Hin.
  rewrite getCurrentFiles_at in Hin |- *.
  destruct (descend (parts p) t) as [t'|] eqn:Hd; [|contradiction].
  unfold values in Hin. apply in_map_iff in Hin. destruct Hin as ([k n] & Hf & Hin).
  cbn in Hf.
  assert (Hw : wf t') by (eapply wf_descend; [eapply wf_buildFileTree; eauto|exact Hd]).
  pose proof (wf_In_lookup k n t' Hw Hin) as Hk.
  assert (Hr : resolve (parts p ++ [k]) t = Some n) by (rewrite resolve_snoc, Hd; exact Hk).
  assert (Hi : info_at (parts p ++ [k]) t = Some f)
    by (apply info_at_resolve; eauto).
  rewrite (info_at_buildFileTree files t _ Hb) in Hi.
  destruct (PlainObject.plain (parts p ++ [k])); [|discriminate].
  rewrite <- info_at_build in Hi. apply info_at_resolve in Hi.
  destruct Hi as (n' & Hr' & Hi'). rewrite resolve_snoc in Hr'.
  destruct (descend (parts p) (buildFileTree files)) as [T'|]; [|discriminate].
  unfold values. apply in_map_iff. exists (k, n'). split; [exact Hi'|].
  apply lookup_In. exact Hr'.
Qed.

Lemma listed_name_is_key files t q n :
  PlainObject.buildFileTree files = Some t -> resolve q t = Some n ->
  name (info n) = last q "".
Proof.
  intros Hb Hr.
  assert (Hi : info_at q t = Some (info n)) by (apply info_at_resolve; eauto).
  rewrite (info_at_buildFileTree files t q Hb) in Hi.
  destruct (PlainObject.plain q); [|discriminate].
  destruct (creator q files); [|discriminate].
  cbn in Hi. injection Hi as Hi. rewrite <- Hi. reflexivity.
Qed.

(** X19.  What the explorer lists as the code computes it, with the keys a
    plain object inherits and the order of [Object.values].  On the tree
    [buildFileTree] returns, [getCurrentFiles] never throws at a path without
    inherited segments.  What it lists is the listing over own keys but for
    the order, which is the same when no name is an array index (those come
    first, in ascending order); every entry listed is an entry of the listing
    over own keys of the tree over own keys, and on a listing without
    inherited segments the two hold the same entries.  After the filter and
    the sort the order of [Object.values] makes no difference, when no two
    entries tie. *)
Theorem code_listing_is_listed_over_own_keys
  (files : list ServerFile) (t : Tree) :
  PlainObject.buildFileTree files = Some t ->
  (forall p, PlainObject.plain (parts p) = true ->
     exists l, PlainObject.getCurrentFiles t p = Some l)
  /\ (forall p l,
        PlainObject.getCurrentFiles t p = Some l ->
        Permutation l (getCurrentFiles t p)
        /\ (forall f, In f l -> In f (getCurrentFiles (buildFileTree files) p))
        /\ (PlainObject.plain_listing files ->
            forall f, In f (getCurrentFiles (buildFileTree files) p) -> In f l)
        /\ ((forall f, In f l -> PlainObject.arrayIndex (name f) = None) ->
            l = getCurrentFiles t p)
        /\ (forall (R : JSRuntime) (C : Conforming R) flt,
              (forall a b, In a l -> In b l -> type a = type b ->
                           localeCompare (name a) (name b) = 0%Z -> a = b) ->
              listing flt l = listing flt (getCurrentFiles t p))).
Proof.
  intros Hb. split.
  - intros p Hp. unfold PlainObject.getCurrentFiles.
    destruct (negb (JS.truthy p)); [eauto|].
    pose proof (descend_plain (parts p) t Hp) as Hd.
    destruct (PlainObject.descend (parts p) t) as [[t'|]|]; [eauto|eauto|contradiction].
  - intros p l Hl.
    pose proof (getCurrentFiles_perm t p l Hl) as Hperm.
    split; [exact Hperm|]. split; [|split; [|split]].
    + intros f Hf. eapply getCurrentFiles_among; eauto.
    + intros Hpl f Hf.
      pose proof (buildFileTree_plain files Hpl) as Hb'. rewrite Hb in Hb'.
      injection Hb' as Ht. rewrite <- Ht in Hf.
      eapply Permutation_in; [symmetry; exact Hperm|exact Hf].
    + intros Hidx. revert Hl Hidx.
      unfold PlainObject.getCurrentFiles. rewrite getCurrentFiles_at.
      assert (Hsame : forall t' q, descend q t = Some t' ->
                (forall f, In f (PlainObject.values t') -> PlainObject.arrayIndex (name f) = None) ->
                PlainObject.values t' = values t').
      { intros t' q Hd Hidx. apply values_insertion_order. intros k n Hin.
        assert (Hw : wf t') by (eapply wf_descend; [eapply wf_buildFileTree; eauto|exact Hd]).
        pose proof (wf_In_lookup k n t' Hw Hin) as Hk.
        assert (Hr : resolve (q ++ [k]) t = Some n) by (rewrite resolve_snoc, Hd; exact Hk).
        pose proof (listed_name_is_key files t _ n Hb Hr) as Hn. rewrite last_last in Hn.
        rewrite <- Hn. apply Hidx.
        apply (Permutation_in _ (Permutation_sym (values_perm t'))).
        unfold values. apply in_map_iff. exists (k, n). auto. }
      destruct (negb (JS.truthy p)) eqn:Ep.
      * intros [= <-] Hidx.
        assert (Hd : descend (parts p) t = Some t).
        { unfold JS.truthy in Ep. apply negb_true_iff, negb_false_iff, String.eqb_eq in Ep.
          subst p. reflexivity. }
        rewrite Hd. apply (Hsame t (parts p) Hd Hidx).
      * destruct (PlainObject.descend (parts p) t) as [[t'|]|] eqn:E; [| |discriminate].
        -- intros [= <-] Hidx. rewrite (descend_own _ _ _ E).
           apply (Hsame t' (parts p) (descend_own _ _ _ E) Hidx).
        -- intros [= <-] _. rewrite (descend_missing _ _ E). reflexivity.
    + intros R C flt Hties. symmetry. apply (listing_of_permutation C); assumption.
Qed.

Lemma code_listing_is_listed_over_own_keys_witness :
  match PlainObject.buildFileTree
          [mkFile "10" "10" file None "t"; mkFile "b" "b" file None "t";
           mkFile "9" "9" file None "t"; mkFile "constructor" "constructor" file None "t"]
  with
  | Some t =>
      PlainObject.getCurrentFiles t ""
      = Some [mkFile "9" "9" file None "t"; mkFile "10" "10" file None "t";
              mkFile "b" "b" file None "t"]
      /\ exists l, PlainObject.getCurrentFiles t "b" = Some l
  | None => True
  end.
Proof.
  destruct (PlainObject.buildFileTree _) as [t|] eqn:E; [|exact I].
  split.
  - injection E as <-. reflexivity.
  - apply (proj1 (code_listing_is_listed_over_own_keys _ t E)). reflexivity.
Defined.

End CodeListing.

